(** * Iter: a bidirectional cursor with a deferred pipeline

    Shallow embedding of the JavaScript class [Iter] (an array, an index
    [idx] and the two parallel arrays [higher_order] and [callback]) and
    the properties of its traversal operations.

    Modelling conventions.
    - A JavaScript value is a [jsval]; [undefined] is a value like any
      other, because the class uses it both as an array element and as
      its "no value" mark.  Numbers are the integers.
    - A user function may have side effects on the program's state
      outside the iterator; that state is the world [W], threaded through
      every call.  User functions return normally and do not touch the
      iterator they are registered on.
    - Calling something that is not a function raises a [TypeError];
      an operation therefore ends in a [completion]. *)

From Equations Require Import Equations.
From Equations.Prop Require Import Logic.
From Stdlib Require Import Floats.PrimFloat Floats.SpecFloat Floats.FloatOps.
From Stdlib Require Import String ZArith List Bool Lia.
Import ListNotations.

Local Open Scope Z_scope.

(** * Part I: the program *)

(** ** Values *)

Inductive jsval : Type :=
| VUndefined
| VNull
| VBool (b : bool)
| VNum (n : Z)
| VStr (s : string).

(** [v === undefined] *)
Definition is_undefined (v : jsval) : bool :=
  match v with VUndefined => true | _ => false end.

(** [!!v], the conversion to a boolean *)
Definition truthy (v : jsval) : bool :=
  match v with
  | VUndefined => false
  | VNull => false
  | VBool b => b
  | VNum n => negb (n =? 0)
  | VStr s => negb (String.eqb s EmptyString)
  end.

(** [a[i]]: reading outside the array gives [undefined]. *)
Definition array_get (a : list jsval) (i : Z) : jsval :=
  if i <? 0 then VUndefined else nth (Z.to_nat i) a VUndefined.

(** [a.length] *)
Definition array_length (a : list jsval) : Z := Z.of_nat (List.length a).

Inductive js_error : Type :=
| TypeError.

(** ** The class *)

Section Model.

Context {W : Type}.

(** How a call ends: with a result and the world it leaves, or with a
    raised error. *)
Inductive completion (A : Type) : Type :=
| Normal (a : A) (w : W)
| Throw (e : js_error).
Arguments Normal {A} a w.
Arguments Throw {A} e.

(** A user function [fn(val)]. *)
Definition callback_fn : Type := jsval -> W -> jsval * W.

(** An entry of [higher_order]: one of the private methods, called as
    [h(fn, val)]. *)
Definition higher_order_fn : Type := callback_fn -> jsval -> W -> jsval * W.

Record Iter : Type := mkIter {
  idx : Z;
  val : list jsval;
  higher_order : list higher_order_fn;
  callback : list callback_fn
}.

Definition set_idx (it : Iter) (i : Z) : Iter :=
  mkIter i (val it) (higher_order it) (callback it).

(** [this.higher_order.push(h); this.callback.push(fn)] *)
Definition push_stage (h : higher_order_fn) (fn : callback_fn) (it : Iter) : Iter :=
  mkIter (idx it) (val it) (higher_order it ++ [h]) (callback it ++ [fn]).

(** [new Iter(val)]; [val || []] replaces an omitted argument. *)
Definition new_Iter (v : option (list jsval)) : Iter :=
  mkIter 0 (match v with Some a => a | None => [] end) [] [].

Definition reset (it : Iter) : Iter :=
  mkIter 0 (val it) [] [].

Definition has_next (it : Iter) : bool :=
  idx it <? array_length (val it).

Definition has_prev (it : Iter) : bool :=
  idx it >? 0.

(** *** The private methods *)

Definition _map : higher_order_fn :=
  fun fn v w => fn v w.

Definition _filter : higher_order_fn :=
  fun fn v w =>
    let (r, w') := fn v w in
    (if truthy r then v else VUndefined, w').

Definition _tap : higher_order_fn :=
  fun fn v w =>
    let (_, w') := fn v w in
    (v, w').

(** *** The pipeline loop

    [for (i = 0; i < higher_order.length && next !== undefined; i++)
       next = higher_order[i](callback[i], next);]

    [hs] is what is left of [higher_order] from index [i] on.  The three
    private methods call [fn] before anything else, so a missing
    [callback[i]] raises at the call. *)
Fixpoint run_stages (hs : list higher_order_fn) (cbs : list callback_fn)
    (i : nat) (v : jsval) (w : W) : completion jsval :=
  match hs with
  | [] => Normal v w
  | h :: hs' =>
      if is_undefined v then Normal v w
      else match nth_error cbs i with
           | None => Throw TypeError
           | Some fn =>
               let (v', w') := h fn v w in
               run_stages hs' cbs (S i) v' w'
           end
  end.

Definition run_pipeline (it : Iter) (v : jsval) (w : W) : completion jsval :=
  run_stages (higher_order it) (callback it) 0%nat v w.

(** Number of raw elements ahead of, and behind, the position. *)
Definition ahead (it : Iter) : nat := Z.to_nat (array_length (val it) - idx it).
Definition behind (it : Iter) : nat := Z.to_nat (idx it).

(** *** next

    [while (this.has_next() && next === undefined) {
       next = this.val[this.idx++];  ...pipeline loop...  }] *)
Equations? next_loop (it : Iter) (nxt : jsval) (w : W)
    : completion (jsval * Iter) by wf (ahead it) lt :=
  next_loop it nxt w with inspect (has_next it && is_undefined nxt) := {
    | exist _ true _ =>
        let raw := array_get (val it) (idx it) in
        let it' := set_idx it (idx it + 1) in
        match run_pipeline it' raw w with
        | Throw e => Throw e
        | Normal v w' => next_loop it' v w'
        end
    | exist _ false _ => Normal (nxt, it) w }.
Proof.
  apply andb_prop in e. destruct e as [Hn _].
  unfold has_next in Hn. apply Z.ltb_lt in Hn.
  unfold ahead, array_length in *; simpl. lia.
Qed.

(** The [console.assert] after the loop only logs; it has no effect on
    the result. *)
Definition next (it : Iter) (w : W) : completion (jsval * Iter) :=
  next_loop it VUndefined w.

(** *** prev

    [while (this.has_prev() && prev === undefined) {
       prev = this.val[(this.idx -= 1)];  ...pipeline loop...  }] *)
Equations? prev_loop (it : Iter) (prv : jsval) (w : W)
    : completion (jsval * Iter) by wf (behind it) lt :=
  prev_loop it prv w with inspect (has_prev it && is_undefined prv) := {
    | exist _ true _ =>
        let it' := set_idx it (idx it - 1) in
        let raw := array_get (val it') (idx it') in
        match run_pipeline it' raw w with
        | Throw e => Throw e
        | Normal v w' => prev_loop it' v w'
        end
    | exist _ false _ => Normal (prv, it) w }.
Proof.
  apply andb_prop in e. destruct e as [Hp _].
  unfold has_prev in Hp. apply Z.gtb_lt in Hp.
  unfold behind; simpl. lia.
Qed.

Definition prev (it : Iter) (w : W) : completion (jsval * Iter) :=
  prev_loop it VUndefined w.

(** *** peek: [this.val[this.idx + 1]] *)
Definition peek (it : Iter) (w : W) : completion (jsval * Iter) :=
  Normal (array_get (val it) (idx it + 1), it) w.

(** *** Registration *)

Definition map (fn : callback_fn) (it : Iter) : Iter := push_stage _map fn it.
Definition filter (fn : callback_fn) (it : Iter) : Iter := push_stage _filter fn it.
Definition tap (fn : callback_fn) (it : Iter) : Iter := push_stage _tap fn it.

(** [some(fn)]: push a filter stage, then [return !!this.next()]. *)
Definition some (fn : callback_fn) (it : Iter) (w : W) : completion (bool * Iter) :=
  match next (push_stage _filter fn it) w with
  | Throw e => Throw e
  | Normal (v, it') w' => Normal (truthy v, it') w'
  end.

(** [find(fn)]: push a filter stage, then [return this.next()]. *)
Definition find (fn : callback_fn) (it : Iter) (w : W) : completion (jsval * Iter) :=
  next (push_stage _filter fn it) w.

(** *** Progress of next

    The loops built on [next()] end because each call that finds
    something ahead moves the position forward. *)

Lemma next_loop_eq (it : Iter) (nxt : jsval) (w : W) :
  next_loop it nxt w =
  if has_next it && is_undefined nxt then
    match run_pipeline (set_idx it (idx it + 1)) (array_get (val it) (idx it)) w with
    | Throw e => Throw e
    | Normal v w' => next_loop (set_idx it (idx it + 1)) v w'
    end
  else Normal (nxt, it) w.
Proof.
  rewrite next_loop_equation_1.
  destruct (inspect (has_next it && is_undefined nxt)) as [[] e];
    cbn [next_loop_unfold_clause_1]; rewrite e; reflexivity.
Qed.

(** Two cursors over the same array with the same pipeline. *)
Definition same_pipeline (a b : Iter) : Prop :=
  val b = val a /\ higher_order b = higher_order a /\ callback b = callback a.

Lemma next_loop_frame : forall (n : nat) (it : Iter) (nxt : jsval) (w : W)
    (v : jsval) (it' : Iter) (w' : W),
  (ahead it <= n)%nat ->
  next_loop it nxt w = Normal (v, it') w' ->
  same_pipeline it it' /\ idx it <= idx it' /\
  (has_next it && is_undefined nxt = true -> idx it < idx it') /\
  has_next it' && is_undefined v = false.
Proof.
  induction n as [|n IH]; intros it nxt w v it' w' Hn H;
    rewrite next_loop_eq in H;
    destruct (has_next it && is_undefined nxt) eqn:Hc.
  - apply andb_prop in Hc. destruct Hc as [Hc _].
    unfold has_next in Hc. apply Z.ltb_lt in Hc. unfold ahead in Hn. lia.
  - inversion H; subst. unfold same_pipeline.
    repeat split; auto; try lia; congruence.
  - destruct (run_pipeline _ _ w) as [v1 w1|e]; [|discriminate].
    apply IH in H.
    + destruct H as ((Hv & Hh & Hcb) & Hi & _ & Hx). simpl in *.
      unfold same_pipeline. repeat split; auto; lia.
    + apply andb_prop in Hc. destruct Hc as [Hc _].
      unfold has_next in Hc. apply Z.ltb_lt in Hc.
      unfold ahead in *. simpl. lia.
  - inversion H; subst. unfold same_pipeline.
    repeat split; auto; try lia; congruence.
Qed.

Lemma next_advances (it : Iter) (w : W) (v : jsval) (it' : Iter) (w' : W) :
  has_next it = true ->
  next it w = Normal (v, it') w' ->
  (ahead it' < ahead it)%nat.
Proof.
  intros Hn H. unfold next in H.
  apply (next_loop_frame (ahead it)) in H; [|lia].
  destruct H as ((Hv & _) & _ & Hlt & _).
  rewrite Hn in Hlt. specialize (Hlt eq_refl).
  unfold has_next in Hn. apply Z.ltb_lt in Hn.
  unfold ahead. rewrite Hv. lia.
Qed.

(** *** collect

    [while (this.has_next()) {
       let transformed = this.next();
       if (transformed !== undefined) collected.push(transformed); }] *)
Equations? collect_loop (it : Iter) (collected : list jsval) (w : W)
    : completion (list jsval * Iter) by wf (ahead it) lt :=
  collect_loop it collected w with inspect (has_next it) := {
    | exist _ true _ with inspect (next it w) := {
        | exist _ (Throw e) _ => Throw e
        | exist _ (Normal (transformed, it') w') _ =>
            collect_loop it'
              (if is_undefined transformed then collected
               else collected ++ [transformed]) w' }
    | exist _ false _ => Normal (collected, it) w }.
Proof.
  eapply next_advances; eauto.
Qed.

Definition collect (it : Iter) (w : W) : completion (list jsval * Iter) :=
  collect_loop it [] w.

(** *** every *)

(** Modelled from the spec: the method [every], which the tests of the
    class call and its source does not define.  A terminal operation
    that pulls with [next()] while something is ahead, checks each value
    [next()] produces with [fn], and stops with [false] at the first one
    that fails; it registers nothing. *)
Equations? every_loop (fn : callback_fn) (it : Iter) (w : W)
    : completion (bool * Iter) by wf (ahead it) lt :=
  every_loop fn it w with inspect (has_next it) := {
    | exist _ true _ with inspect (next it w) := {
        | exist _ (Throw e) _ => Throw e
        | exist _ (Normal (v, it') w') _ =>
            if is_undefined v then every_loop fn it' w'
            else
              let (r, w'') := fn v w' in
              if truthy r then every_loop fn it' w'' else Normal (false, it') w'' }
    | exist _ false _ => Normal (true, it) w }.
Proof.
  all: eapply next_advances; eauto.
Qed.

Definition every (fn : callback_fn) (it : Iter) (w : W)
    : completion (bool * Iter) :=
  every_loop fn it w.

End Model.

Arguments completion W A : clear implicits.
Arguments Normal {W A} a w.
Arguments Throw {W A} e.
Arguments callback_fn W : clear implicits.
Arguments higher_order_fn W : clear implicits.
Arguments Iter W : clear implicits.

(** ** skip *)

Section SkipModel.

Context {W : Type}.

(** The counters of the stateful stages live in the world, one cell for
    each stage, beside the state [W] the user functions act on.
    [set_cell c x cs] writes [x] into cell [c]. *)
Fixpoint set_cell (c : nat) (x : nat) (cs : list nat) : list nat :=
  match cs, c with
  | [], _ => []
  | _ :: cs', O => x :: cs'
  | y :: cs', S c' => y :: set_cell c' x cs'
  end.

(** Modelled from the spec: the stage of the method [skip], which the
    tests of the class call and its source does not define.  The
    predicate [skip(n)] registers counts the elements that reach it in
    its own cell [c] and answers [false] for the first [n] of them,
    [true] from then on. *)
Definition skip_stage (n c : nat) : callback_fn (W * list nat) :=
  fun _ wc =>
    let (w, cs) := wc in
    let count := nth c cs O in
    (VBool (n <=? count)%nat, (w, set_cell c (S count) cs)).

(** Modelled from the spec: the method [skip], which the tests of the
    class call and its source does not define.  [skip(n)] registers a
    filter-like stage with a fresh counter at zero and returns the
    cursor. *)
Definition skip (n : nat) (it : Iter (W * list nat)) (wc : W * list nat)
    : Iter (W * list nat) * (W * list nat) :=
  let (w, cs) := wc in
  (filter (skip_stage n (length cs)) it, (w, cs ++ [O])).

End SkipModel.

(** ** The earlier class of the script

    The first version of [Iter]: [next()] returns the raw element and
    [collect()] holds the pipeline loop itself.  The constructor keeps
    its argument as it is, so [val] is [undefined] when it is omitted,
    and reading [val.length] or [val[i]] then raises. *)

Module Script.

Section Model.

Context {W : Type}.

Record Iter : Type := mkIter {
  idx : Z;
  val : option (list jsval);
  higherOrder : list (higher_order_fn W);
  callback : list (callback_fn W)
}.

Definition new_Iter (v : option (list jsval)) : Iter :=
  mkIter 0 v [] [].

(** [this.idx < this.val.length] *)
Definition hasNext (it : Iter) (w : W) : completion W bool :=
  match val it with
  | None => Throw TypeError
  | Some a => Normal (idx it <? array_length a) w
  end.

(** [this.val[this.idx++]] *)
Definition next (it : Iter) (w : W) : completion W (jsval * Iter) :=
  match val it with
  | None => Throw TypeError
  | Some a =>
      Normal (array_get a (idx it),
              mkIter (idx it + 1) (val it) (higherOrder it) (callback it)) w
  end.

Definition _map : higher_order_fn W :=
  fun fn v w => fn v w.

Definition _filter : higher_order_fn W :=
  fun fn v w =>
    let (r, w') := fn v w in
    (if truthy r then v else VUndefined, w').

Definition map (fn : callback_fn W) (it : Iter) : Iter :=
  mkIter (idx it) (val it) (higherOrder it ++ [_map]) (callback it ++ [fn]).

Definition filter (fn : callback_fn W) (it : Iter) : Iter :=
  mkIter (idx it) (val it) (higherOrder it ++ [_filter]) (callback it ++ [fn]).

Definition ahead (it : Iter) : nat :=
  match val it with
  | None => O
  | Some a => Z.to_nat (array_length a - idx it)
  end.

(** [while (this.hasNext()) {
       let boxed = this.next();
       for (i = 0; i < higherOrder.length && boxed !== undefined; i++)
         boxed = higherOrder[i](callback[i], boxed);
       boxed !== undefined && full_boxed.push(boxed); }]

    The [for] loop is the one of the later class, [run_stages]. *)
Equations? collect_loop (it : Iter) (full_boxed : list jsval) (w : W)
    : completion W (list jsval * Iter) by wf (ahead it) lt :=
  collect_loop it full_boxed w with inspect (hasNext it w) := {
    | exist _ (Throw e) _ => Throw e
    | exist _ (Normal false _) _ => Normal (full_boxed, it) w
    | exist _ (Normal true _) _ with inspect (next it w) := {
        | exist _ (Throw e) _ => Throw e
        | exist _ (Normal (boxed, it') w') _ =>
            match run_stages (higherOrder it') (callback it') 0%nat boxed w' with
            | Throw e => Throw e
            | Normal boxed' w'' =>
                collect_loop it'
                  (if is_undefined boxed' then full_boxed
                   else full_boxed ++ [boxed']) w''
            end } }.
Proof.
  clear collect_loop0. unfold hasNext, next, ahead in *.
  destruct (val it) as [a|]; [|discriminate].
  inversion e0; subst it'. inversion e as [[Hlt Hw]].
  apply Z.ltb_lt in Hlt. simpl. unfold array_length in *. lia.
Qed.

Definition collect (it : Iter) (w : W) : completion W (list jsval * Iter) :=
  collect_loop it [] w.

End Model.

Arguments Iter W : clear implicits.

End Script.

(** ** The board of the script

    The methods of [Board] that work on its fields, the console and the
    style of the document root.  Gardens and players are objects, kept
    by reference; a stored object is truthy, [null] is not.  The width
    and the height are numbers, stored by [set_size] as they are given:
    a number is a [float], the binary64 of the language with its
    rounding, its infinities and its NaN. *)

Module Game.

(** An array length as a number. *)
Definition of_length (n : nat) : float :=
  SF2Prim (binary_normalize prec emax (Z.of_nat n) 0 false).

(** What the browser keeps of the calls: the messages of
    [console.error], and the [setProperty] calls on the root style,
    latest last. *)
Record Browser : Type := mkBrowser {
  console_error : list string;
  root_style : list (string * float)
}.

Definition error (msg : string) (d : Browser) : Browser :=
  mkBrowser (console_error d ++ [msg]) (root_style d).

Definition setProperty (name : string) (value : float) (d : Browser) : Browser :=
  mkBrowser (console_error d) (root_style d ++ [(name, value)]).

Section Model.

Variables G P : Type.

Record Board : Type := mkBoard {
  width : float;
  height : float;
  gardens : list G;
  occupied_garden : option G;
  player : option P
}.

Definition set_size (w h : float) (b : Board) (d : Browser) : Board * Browser :=
  (mkBoard w h (gardens b) (occupied_garden b) (player b),
   setProperty "--board-height" h (setProperty "--board-width" w d)).

Definition increase (b : Board) (d : Browser) : Board * Browser :=
  let b' := mkBoard (width b + 1)%float (height b + 1)%float
              (gardens b) (occupied_garden b) (player b) in
  (b', setProperty "--board-height" (height b')
         (setProperty "--board-width" (width b') d)).

(** [this.gardens.length >= this.width * this.height - 1]: on numbers
    [a >= b] is [b <= a], and false when either side is NaN. *)
Definition add_garden (garden : G) (b : Board) (d : Browser) : Board * Browser :=
  if (width b * height b - 1 <=? of_length (length (gardens b)))%float then
    (b, error "Board is full!" d)
  else
    match occupied_garden b with
    | Some _ =>
        (mkBoard (width b) (height b) (gardens b ++ [garden])
           (occupied_garden b) (player b), d)
    | None =>
        (mkBoard (width b) (height b) (gardens b) (Some garden) (player b), d)
    end.

Definition spawn_player (p : P) (b : Board) (d : Browser) : Board * Browser :=
  match player b with
  | Some _ => (b, error "Player already exists!" d)
  | None =>
      (mkBoard (width b) (height b) (gardens b) (occupied_garden b) (Some p), d)
  end.

End Model.

Arguments width {G P} b.
Arguments height {G P} b.
Arguments gardens {G P} b.
Arguments occupied_garden {G P} b.
Arguments player {G P} b.
Arguments mkBoard {G P} width height gardens occupied_garden player.
Arguments set_size {G P} w h b d.
Arguments increase {G P} b d.
Arguments add_garden {G P} garden b d.
Arguments spawn_player {G P} p b d.

End Game.

(** * Part II: the vocabulary of the statements *)

(** A user function without side effects. *)
Definition pure_fn {W : Type} (f : jsval -> jsval) : callback_fn W :=
  fun v w => (f v, w).

(** The elements of [l] other than [undefined], in order. *)
Definition defined_of (l : list jsval) : list jsval :=
  List.filter (fun v => negb (is_undefined v)) l.

Section Vocabulary.

Context {W : Type}.

(** ** The pipeline read as a list of pairs *)

(** The two arrays are equally long. *)
Definition pipeline_ok (it : Iter W) : Prop :=
  length (higher_order it) = length (callback it).

(** Nothing is registered. *)
Definition no_stages (it : Iter W) : Prop :=
  higher_order it = [] /\ callback it = [].

(** The registered stages, each private method with its user function. *)
Definition stages (it : Iter W) : list (higher_order_fn W * callback_fn W) :=
  combine (higher_order it) (callback it).

(** One raw element through a list of stages, stopping at [undefined]. *)
Fixpoint run_pairs (ps : list (higher_order_fn W * callback_fn W))
    (v : jsval) (w : W) : jsval * W :=
  match ps with
  | [] => (v, w)
  | (h, fn) :: ps' =>
      if is_undefined v then (v, w)
      else let (v', w') := h fn v w in run_pairs ps' v' w'
  end.

(** Every raw element goes through the stages once, in order; what comes
    out defined is kept. *)
Fixpoint collect_raws (ps : list (higher_order_fn W * callback_fn W))
    (raws : list jsval) (acc : list jsval) (w : W) : list jsval * W :=
  match raws with
  | [] => (acc, w)
  | r :: rs =>
      let (v, w') := run_pairs ps r w in
      collect_raws ps rs (if is_undefined v then acc else acc ++ [v]) w'
  end.

(** ** Sequences of calls *)

(** [f] applied to each element in turn, first to last, each call seeing
    the world the one before left. *)
Fixpoint elementwise (f : callback_fn W) (l : list jsval) (w : W) : list jsval * W :=
  match l with
  | [] => ([], w)
  | x :: l' =>
      let (y, w1) := f x w in
      let (ys, w2) := elementwise f l' w1 in
      (y :: ys, w2)
  end.

(** [n] calls of [next()] in a row, their results dropped. *)
Fixpoint next_times (n : nat) (it : Iter W) (w : W) : completion W (Iter W) :=
  match n with
  | O => Normal it w
  | S k =>
      match next it w with
      | Throw e => Throw e
      | Normal (_, it') w' => next_times k it' w'
      end
  end.

(** A call of one of the three chainable registration methods. *)
Inductive registration : Type :=
| reg_map (fn : callback_fn W)
| reg_filter (fn : callback_fn W)
| reg_tap (fn : callback_fn W).

Definition register_one (it : Iter W) (r : registration) : Iter W :=
  match r with
  | reg_map fn => map fn it
  | reg_filter fn => filter fn it
  | reg_tap fn => tap fn it
  end.

Definition register (rs : list registration) (it : Iter W) : Iter W :=
  fold_left register_one rs it.

(** A call of a public method of the class. *)
Inductive operation : Type :=
| op_reset
| op_map (fn : callback_fn W)
| op_filter (fn : callback_fn W)
| op_tap (fn : callback_fn W)
| op_some (fn : callback_fn W)
| op_find (fn : callback_fn W)
| op_next
| op_prev
| op_peek
| op_collect.

(** What a call does to the cursor and the world, its result dropped. *)
Definition drop_result {A : Type} (c : completion W (A * Iter W)) : completion W (Iter W) :=
  match c with
  | Throw e => Throw e
  | Normal (_, it') w' => Normal it' w'
  end.

Definition exec (o : operation) (it : Iter W) (w : W) : completion W (Iter W) :=
  match o with
  | op_reset => Normal (reset it) w
  | op_map fn => Normal (map fn it) w
  | op_filter fn => Normal (filter fn it) w
  | op_tap fn => Normal (tap fn it) w
  | op_some fn => drop_result (some fn it w)
  | op_find fn => drop_result (find fn it w)
  | op_next => drop_result (next it w)
  | op_prev => drop_result (prev it w)
  | op_peek => drop_result (peek it w)
  | op_collect => drop_result (collect it w)
  end.

Fixpoint exec_all (ops : list operation) (it : Iter W) (w : W) : completion W (Iter W) :=
  match ops with
  | [] => Normal it w
  | o :: ops' =>
      match exec o it w with
      | Throw e => Throw e
      | Normal it' w' => exec_all ops' it' w'
      end
  end.

(** The stages the calls made so far have registered: each user function
    with the private method of the call that registered it. *)
Definition registered_by (o : operation)
    (ps : list (higher_order_fn W * callback_fn W))
    : list (higher_order_fn W * callback_fn W) :=
  match o with
  | op_reset => []
  | op_map fn => ps ++ [(_map, fn)]
  | op_filter fn => ps ++ [(_filter, fn)]
  | op_tap fn => ps ++ [(_tap, fn)]
  | op_some fn => ps ++ [(_filter, fn)]
  | op_find fn => ps ++ [(_filter, fn)]
  | op_next => ps
  | op_prev => ps
  | op_peek => ps
  | op_collect => ps
  end.

Definition registered (ops : list operation)
    : list (higher_order_fn W * callback_fn W) :=
  fold_left (fun ps o => registered_by o ps) ops [].


(** ** Notions used in the statements *)

(** [new Iter(vals).map(f).collect()] returns [f] applied element-wise. *)
Definition map_collect_is_elementwise
    (vals : list jsval) (f : callback_fn W) (w : W) : Prop :=
  exists it',
    collect (map f (new_Iter (Some vals))) w =
    Normal (fst (elementwise f vals w), it') (snd (elementwise f vals w)).

(** [new Iter(vals).skip(n).collect()] returns [vals] without its first
    [n] elements, nothing when [n] is the length or more. *)
Definition skip_collect_drops (vals : list jsval) (n : nat) (wc : W * list nat) : Prop :=
  exists vs it' wc',
    collect (fst (skip n (new_Iter (Some vals)) wc))
            (snd (skip n (new_Iter (Some vals)) wc))
      = Normal (vs, it') wc' /\
    vs = skipn n vals /\
    ((length vals <= n)%nat -> vs = []).

(** [every(fn)] on [it], for [fn] without side effects, returns [true]
    exactly when [fn] holds for every element of the array from the
    position on, returns [true] when no element is left, and leaves the
    two pipeline arrays as they were. *)
Definition every_over_remaining (p : jsval -> jsval) (it : Iter W) (w : W) : Prop :=
  exists b it' w',
    every (pure_fn p) it w = Normal (b, it') w' /\
    (b = true <->
     forall v, In v (skipn (Z.to_nat (idx it)) (val it)) -> truthy (p v) = true) /\
    (has_next it = false -> b = true) /\
    higher_order it' = higher_order it /\
    callback it' = callback it.








(** ** Further notions *)

(** The elements of [l] that [fn] accepts, asked first to last, each
    call seeing the world the one before left. *)
Fixpoint select (fn : callback_fn W) (l : list jsval) (w : W) : list jsval * W :=
  match l with
  | [] => ([], w)
  | x :: l' =>
      let (r, w1) := fn x w in
      let (xs, w2) := select fn l' w1 in
      (if truthy r then x :: xs else xs, w2)
  end.

(** One raw element after the other through the pipeline loop of [it];
    what comes out defined is kept, a raised error ends the run. *)
Fixpoint drain (it : Iter W) (raws : list jsval) (acc : list jsval) (w : W)
    : completion W (list jsval) :=
  match raws with
  | [] => Normal acc w
  | r :: rs =>
      match run_pipeline it r w with
      | Throw e => Throw e
      | Normal v w' => drain it rs (if is_undefined v then acc else acc ++ [v]) w'
      end
  end.

(** [n] calls of [prev()] in a row, their results dropped. *)
Fixpoint prev_times (n : nat) (it : Iter W) (w : W) : completion W (Iter W) :=
  match n with
  | O => Normal it w
  | S k =>
      match prev it w with
      | Throw e => Throw e
      | Normal (_, it') w' => prev_times k it' w'
      end
  end.

(** The pipeline of [it] computes [g] of the raw element and leaves the
    world as it is. *)
Definition stateless (it : Iter W) (g : jsval -> jsval) : Prop :=
  forall raw w, run_pipeline it raw w = Normal (g raw) w.

(** The pair a registration call pushes. *)
Definition stage_of (r : registration) : higher_order_fn W * callback_fn W :=
  match r with
  | reg_map fn => (_map, fn)
  | reg_filter fn => (_filter, fn)
  | reg_tap fn => (_tap, fn)
  end.

(** The cursor of the later class with the fields of one of the earlier
    class, over the array [a]. *)
Definition later (it : Script.Iter W) (a : list jsval) : Iter W :=
  mkIter (Script.idx it) a (Script.higherOrder it) (Script.callback it).

(** The cursor of the earlier class at position [i] with the rest of [it]. *)
Definition earlier_at (it : Script.Iter W) (i : Z) : Script.Iter W :=
  Script.mkIter i (Script.val it) (Script.higherOrder it) (Script.callback it).

(** The position is inside the array or just behind its end. *)
Definition in_range (it : Iter W) : Prop :=
  0 <= idx it <= array_length (val it).

End Vocabulary.

(** ** A world in two parts

    User functions that act on one part of the world each: the stages of
    a chain on [A], a tap on [L]. *)

Section TwoParts.

Context {A L : Type}.

Definition on_left (f : callback_fn A) : callback_fn (A * L) :=
  fun v al =>
    let (r, a') := f v (fst al) in
    (r, (a', snd al)).

Definition on_right (t : jsval -> L -> jsval * L) : callback_fn (A * L) :=
  fun v al =>
    let (r, l') := t v (snd al) in
    (r, (fst al, l')).

Definition lift_reg (r : registration (W := A)) : registration (W := A * L) :=
  match r with
  | reg_map fn => reg_map (on_left fn)
  | reg_filter fn => reg_filter (on_left fn)
  | reg_tap fn => reg_tap (on_left fn)
  end.

End TwoParts.

(** ** Sequences of calls on the board *)

Section BoardCalls.

Context {G P : Type}.

Definition add_gardens (gs : list G) (b : Game.Board G P) (d : Game.Browser)
    : Game.Board G P * Game.Browser :=
  fold_left (fun bd g => Game.add_garden g (fst bd) (snd bd)) gs (b, d).

Definition spawn_players (ps : list P) (b : Game.Board G P) (d : Game.Browser)
    : Game.Board G P * Game.Browser :=
  fold_left (fun bd p => Game.spawn_player p (fst bd) (snd bd)) ps (b, d).

(** The test [length >= width * height - 1] of [add_garden], for a list
    of [n] gardens on a board of the size of [b]. *)
Definition refuses_at (b : Game.Board G P) (n : nat) : bool :=
  (Game.width b * Game.height b - 1 <=? Game.of_length n)%float.

(** On a board of the size of [b] the test refuses a list of [c] gardens
    or more and no shorter one, as far as the lengths up to [N] go.
    For a width and a height that are integers [c] is their product
    less one; on a board of 1.5 by 1.5 it is 2. *)
Definition refuses_from (b : Game.Board G P) (c : Z) (N : nat) : Prop :=
  forall n : nat, (n <= N)%nat -> refuses_at b n = (c <=? Z.of_nat n).

(** [refuses_from], decided by running the test on each length. *)
Definition refuses_fromb (b : Game.Board G P) (c : Z) (N : nat) : bool :=
  forallb (fun n => Bool.eqb (refuses_at b n) (c <=? Z.of_nat n)) (seq 0 (S N)).

(** A call of one of the four methods of the board that work on its
    fields. *)
Inductive board_call : Type :=
| call_set_size (w h : float)
| call_increase
| call_add_garden (g : G)
| call_spawn_player (p : P).

Definition run_call (c : board_call) (bd : Game.Board G P * Game.Browser)
    : Game.Board G P * Game.Browser :=
  match c with
  | call_set_size w h => Game.set_size w h (fst bd) (snd bd)
  | call_increase => Game.increase (fst bd) (snd bd)
  | call_add_garden g => Game.add_garden g (fst bd) (snd bd)
  | call_spawn_player p => Game.spawn_player p (fst bd) (snd bd)
  end.

Definition run_calls (cs : list board_call) (b : Game.Board G P) (d : Game.Browser)
    : Game.Board G P * Game.Browser :=
  fold_left (fun bd c => run_call c bd) cs (b, d).

(** The value a style property has after the [setProperty] calls
    [writes]: that of the latest call for its name. *)
Definition style_value (name : string) (writes : list (string * float))
    : option float :=
  fold_left (fun acc x => if String.eqb (fst x) name then Some (snd x) else acc)
    writes None.

(** The two style properties of the root show the size of the board. *)
Definition style_shows_size (bd : Game.Board G P * Game.Browser) : Prop :=
  style_value "--board-width" (Game.root_style (snd bd)) = Some (Game.width (fst bd)) /\
  style_value "--board-height" (Game.root_style (snd bd)) = Some (Game.height (fst bd)).

(** [n] more messages [msg] on the console. *)
Definition with_errors (msg : string) (n : nat) (d : Game.Browser) : Game.Browser :=
  Game.mkBrowser (Game.console_error d ++ repeat msg n) (Game.root_style d).

End BoardCalls.

(** A board of [w] by [h] with the gardens [gs] in its list. *)
Definition board_of (w h : float) (gs : list nat) (o : option nat)
    : Game.Board nat unit :=
  Game.mkBoard w h gs o None.

(** ** Some user functions *)

(** [v => v * 2] *)
Definition double : jsval -> jsval :=
  fun v => match v with VNum n => VNum (n * 2) | _ => v end.

(** [v => v === 0] *)
Definition is_zero : jsval -> jsval :=
  fun v => match v with VNum 0 => VBool true | _ => VBool false end.

(** [v => v > k] *)
Definition greater_than (k : Z) : jsval -> jsval :=
  fun v => match v with VNum n => VBool (k <? n) | _ => VBool false end.

(** [v => v * v] *)
Definition square : jsval -> jsval :=
  fun v => match v with VNum n => VNum (n * n) | _ => v end.

(** [v => v + k] *)
Definition plus (k : Z) : jsval -> jsval :=
  fun v => match v with VNum n => VNum (n + k) | _ => v end.

(** [v => v === k] *)
Definition equals (k : Z) : jsval -> jsval :=
  fun v => match v with VNum n => VBool (n =? k) | _ => VBool false end.

(** * Part III: properties *)

(** ** Values and arrays *)

Lemma is_undefined_true (v : jsval) : is_undefined v = true -> v = VUndefined.
Proof. destruct v; simpl; congruence. Qed.

Lemma is_undefined_false (v : jsval) : is_undefined v = false <-> v <> VUndefined.
Proof. destruct v; simpl; split; congruence. Qed.


Lemma array_get_nth (l : list jsval) (i : Z) :
  0 <= i -> array_get l i = nth (Z.to_nat i) l VUndefined.
Proof.
  intros Hi. unfold array_get.
  destruct (i <? 0) eqn:E; [apply Z.ltb_lt in E; lia | reflexivity].
Qed.

Lemma array_get_negative (l : list jsval) (i : Z) : i < 0 -> array_get l i = VUndefined.
Proof. intros Hi. unfold array_get. apply Z.ltb_lt in Hi. rewrite Hi. reflexivity. Qed.

Lemma skipn_nth_error {A : Type} (l : list A) (i : nat) (x : A) :
  nth_error l i = Some x -> skipn i l = x :: skipn (S i) l.
Proof.
  revert i. induction l as [|a l IH]; intros [|i] H; simpl in *; try discriminate.
  - congruence.
  - apply IH in H. rewrite H. reflexivity.
Qed.

Lemma skipn_array_get (l : list jsval) (i : Z) :
  0 <= i < array_length l ->
  skipn (Z.to_nat i) l = array_get l i :: skipn (Z.to_nat (i + 1)) l.
Proof.
  intros Hi. unfold array_length in Hi.
  rewrite array_get_nth by lia.
  replace (Z.to_nat (i + 1)) with (S (Z.to_nat i)) by lia.
  apply skipn_nth_error.
  rewrite (nth_error_nth' l VUndefined) by lia. reflexivity.
Qed.

Lemma skipn_exhausted (l : list jsval) (i : Z) :
  array_length l <= i -> skipn (Z.to_nat i) l = [].
Proof. intros Hi. unfold array_length in Hi. apply skipn_all2. lia. Qed.

Lemma firstn_snoc_nth {A : Type} (d : A) : forall (l : list A) (k : nat),
  (k < length l)%nat -> firstn (S k) l = firstn k l ++ [nth k l d].
Proof.
  induction l as [|a l IH]; intros k Hk; simpl in Hk; [lia|].
  destruct k as [|k]; [reflexivity|].
  cbn [firstn nth app]. f_equal. apply IH. lia.
Qed.

Lemma firstn_array_get (l : list jsval) (i : Z) :
  0 < i ->
  defined_of (rev (firstn (Z.to_nat i) l)) =
  defined_of (array_get l (i - 1) :: rev (firstn (Z.to_nat (i - 1)) l)).
Proof.
  intros Hi. rewrite array_get_nth by lia.
  destruct (Nat.lt_ge_cases (Z.to_nat (i - 1)) (length l)) as [Hlt|Hge].
  - replace (Z.to_nat i) with (S (Z.to_nat (i - 1))) by lia.
    rewrite (firstn_snoc_nth VUndefined) by exact Hlt.
    rewrite rev_app_distr. reflexivity.
  - rewrite nth_overflow by exact Hge.
    rewrite !firstn_all2 by lia. reflexivity.
Qed.

Lemma defined_of_no_undefined (l : list jsval) : ~ In VUndefined (defined_of l).
Proof.
  unfold defined_of. intros H. apply filter_In in H. destruct H as [_ H]. discriminate.
Qed.

Lemma combine_snoc {A B : Type} : forall (l : list A) (l' : list B) (a : A) (b : B),
  length l = length l' ->
  combine (l ++ [a]) (l' ++ [b]) = combine l l' ++ [(a, b)].
Proof.
  induction l as [|x l IH]; intros [|y l'] a b H; simpl in *; try discriminate.
  - reflexivity.
  - f_equal. apply IH. congruence.
Qed.

(** ** The loops *)

Section Loops.

Context {W : Type}.

Lemma has_next_true (it : Iter W) : has_next it = true <-> idx it < array_length (val it).
Proof. unfold has_next. apply Z.ltb_lt. Qed.

Lemma has_next_false (it : Iter W) : has_next it = false <-> array_length (val it) <= idx it.
Proof. unfold has_next. rewrite Z.ltb_ge. reflexivity. Qed.

Lemma has_prev_true (it : Iter W) : has_prev it = true <-> 0 < idx it.
Proof. unfold has_prev. rewrite Z.gtb_ltb. apply Z.ltb_lt. Qed.

Lemma has_prev_false (it : Iter W) : has_prev it = false <-> idx it <= 0.
Proof. unfold has_prev. rewrite Z.gtb_ltb. apply Z.ltb_ge. Qed.

Lemma prev_loop_eq (it : Iter W) (prv : jsval) (w : W) :
  prev_loop it prv w =
  if has_prev it && is_undefined prv then
    match run_pipeline (set_idx it (idx it - 1)) (array_get (val it) (idx it - 1)) w with
    | Throw e => Throw e
    | Normal v w' => prev_loop (set_idx it (idx it - 1)) v w'
    end
  else Normal (prv, it) w.
Proof.
  rewrite prev_loop_equation_1.
  destruct (inspect (has_prev it && is_undefined prv)) as [[] e];
    cbn [prev_loop_unfold_clause_1]; rewrite e; reflexivity.
Qed.

Lemma collect_loop_eq (it : Iter W) (collected : list jsval) (w : W) :
  collect_loop it collected w =
  if has_next it then
    match next it w with
    | Throw e => Throw e
    | Normal (transformed, it') w' =>
        collect_loop it'
          (if is_undefined transformed then collected
           else collected ++ [transformed]) w'
    end
  else Normal (collected, it) w.
Proof.
  rewrite collect_loop_equation_1.
  destruct (inspect (has_next it)) as [[] e];
    cbn [collect_loop_unfold_clause_1];
    symmetry; (etransitivity; [rewrite e; reflexivity|]); [|reflexivity].
  destruct (inspect (next it w)) as [[[t it'] w'|e'] e0];
    cbn [collect_loop_unfold_clause_1_clause_1]; rewrite e0; reflexivity.
Qed.

Lemma every_loop_eq (fn : callback_fn W) (it : Iter W) (w : W) :
  every_loop fn it w =
  if has_next it then
    match next it w with
    | Throw e => Throw e
    | Normal (v, it') w' =>
        if is_undefined v then every_loop fn it' w'
        else
          let (r, w'') := fn v w' in
          if truthy r then every_loop fn it' w'' else Normal (false, it') w''
    end
  else Normal (true, it) w.
Proof.
  rewrite every_loop_equation_1.
  destruct (inspect (has_next it)) as [[] e];
    cbn [every_loop_unfold_clause_1];
    symmetry; (etransitivity; [rewrite e; reflexivity|]); [|reflexivity].
  destruct (inspect (next it w)) as [[[v it'] w'|e'] e0];
    cbn [every_loop_unfold_clause_1_clause_1]; rewrite e0; reflexivity.
Qed.

(** *** What a traversal call leaves untouched *)

Lemma prev_loop_frame : forall (n : nat) (it : Iter W) (prv : jsval) (w : W)
    (v : jsval) (it' : Iter W) (w' : W),
  (behind it <= n)%nat ->
  prev_loop it prv w = Normal (v, it') w' ->
  same_pipeline it it' /\ idx it' <= idx it /\
  (has_prev it && is_undefined prv = true -> idx it' < idx it) /\
  has_prev it' && is_undefined v = false.
Proof.
  induction n as [|n IH]; intros it prv w v it' w' Hn H;
    rewrite prev_loop_eq in H;
    destruct (has_prev it && is_undefined prv) eqn:Hc.
  - apply andb_prop in Hc. destruct Hc as [Hc _].
    unfold has_prev in Hc. apply Z.gtb_lt in Hc. unfold behind in Hn. lia.
  - inversion H; subst. unfold same_pipeline.
    repeat split; auto; try lia; congruence.
  - destruct (run_pipeline _ _ w) as [v1 w1|e]; [|discriminate].
    apply IH in H.
    + destruct H as ((Hv & Hh & Hcb) & Hi & _ & Hx). simpl in *.
      unfold same_pipeline. repeat split; auto; lia.
    + apply andb_prop in Hc. destruct Hc as [Hc _].
      unfold has_prev in Hc. apply Z.gtb_lt in Hc.
      unfold behind in *. simpl. lia.
  - inversion H; subst. unfold same_pipeline.
    repeat split; auto; try lia; congruence.
Qed.

Lemma same_pipeline_ok (a b : Iter W) :
  same_pipeline a b -> pipeline_ok a -> pipeline_ok b.
Proof. unfold same_pipeline, pipeline_ok. intros (_ & -> & ->). auto. Qed.

Lemma same_pipeline_stages (a b : Iter W) :
  same_pipeline a b -> stages b = stages a.
Proof. unfold same_pipeline, stages. intros (_ & -> & ->). auto. Qed.

Lemma same_pipeline_trans (a b c : Iter W) :
  same_pipeline a b -> same_pipeline b c -> same_pipeline a c.
Proof.
  unfold same_pipeline. intros (H1 & H2 & H3) (H4 & H5 & H6).
  repeat split; congruence.
Qed.

Lemma next_same (it : Iter W) (w : W) v it' w' :
  next it w = Normal (v, it') w' -> same_pipeline it it'.
Proof. intros H. apply (next_loop_frame (ahead it) _ _ _ _ _ _ (Nat.le_refl _) H). Qed.

Lemma prev_same (it : Iter W) (w : W) v it' w' :
  prev it w = Normal (v, it') w' -> same_pipeline it it'.
Proof. intros H. apply (prev_loop_frame (behind it) _ _ _ _ _ _ (Nat.le_refl _) H). Qed.



(** The condition of the [console.assert] in [next()] holds whenever it
    is evaluated. *)
Lemma next_assertion (it : Iter W) (w : W) v it' w' :
  next it w = Normal (v, it') w' -> has_next it' = true -> v <> VUndefined.
Proof.
  intros H Hn.
  pose proof (next_loop_frame (ahead it) _ _ _ _ _ _ (Nat.le_refl _) H) as (_ & _ & _ & Hx).
  rewrite Hn in Hx. simpl in Hx. apply is_undefined_false. exact Hx.
Qed.


Lemma next_exhausted (it : Iter W) (w : W) :
  has_next it = false -> next it w = Normal (VUndefined, it) w.
Proof. intros H. unfold next. rewrite next_loop_eq, H. reflexivity. Qed.

Lemma push_stage_ok (h : higher_order_fn W) (fn : callback_fn W) (it : Iter W) :
  pipeline_ok it -> pipeline_ok (push_stage h fn it).
Proof.
  unfold pipeline_ok. simpl. intros H. rewrite !length_app, H. reflexivity.
Qed.

(** *** The pipeline loop applies the pairs *)

Lemma run_pairs_undefined ps (w : W) : run_pairs ps VUndefined w = (VUndefined, w).
Proof. destruct ps as [|[h fn] ps]; reflexivity. Qed.

Lemma run_pairs_app : forall ps qs (v : jsval) (w : W),
  run_pairs (ps ++ qs) v w =
  let (v1, w1) := run_pairs ps v w in run_pairs qs v1 w1.
Proof.
  induction ps as [|[h fn] ps IH]; intros qs v w; simpl; [reflexivity|].
  destruct (is_undefined v) eqn:Hu.
  - rewrite (is_undefined_true _ Hu), run_pairs_undefined. reflexivity.
  - destruct (h fn v w) as [v1 w1]. apply IH.
Qed.

Lemma run_stages_pairs : forall hs cbs (i : nat) v (w : W),
  (length hs + i = length cbs)%nat ->
  run_stages hs cbs i v w =
  let (v', w') := run_pairs (combine hs (skipn i cbs)) v w in Normal v' w'.
Proof.
  induction hs as [|h hs IH]; intros cbs i v w Hlen; simpl.
  - reflexivity.
  - destruct (nth_error cbs i) as [fn|] eqn:Hn.
    + rewrite (skipn_nth_error _ _ _ Hn). simpl.
      destruct (is_undefined v); [reflexivity|].
      destruct (h fn v w) as [v1 w1].
      apply IH. simpl in Hlen. lia.
    + apply nth_error_None in Hn. simpl in Hlen. lia.
Qed.

Lemma run_pipeline_pairs (it : Iter W) (v : jsval) (w : W) :
  pipeline_ok it ->
  run_pipeline it v w = let (v', w') := run_pairs (stages it) v w in Normal v' w'.
Proof.
  intros Hok. unfold run_pipeline, stages.
  rewrite run_stages_pairs by (unfold pipeline_ok in Hok; lia).
  reflexivity.
Qed.

Lemma run_pipeline_no_stages (it : Iter W) (v : jsval) (w : W) :
  higher_order it = [] -> run_pipeline it v w = Normal v w.
Proof. unfold run_pipeline. intros ->. reflexivity. Qed.

Lemma stages_push (h : higher_order_fn W) (fn : callback_fn W) (it : Iter W) :
  pipeline_ok it -> stages (push_stage h fn it) = stages it ++ [(h, fn)].
Proof. intros Hok. unfold stages. simpl. apply combine_snoc. exact Hok. Qed.

(** *** An [undefined] raw element is stepped over *)

Lemma run_stages_undefined (hs : list (higher_order_fn W)) (cbs : list (callback_fn W))
    (i : nat) (w : W) :
  run_stages hs cbs i VUndefined w = Normal VUndefined w.
Proof. destruct hs; reflexivity. Qed.

Lemma next_steps_over (it : Iter W) (w : W) :
  has_next it = true -> array_get (val it) (idx it) = VUndefined ->
  next it w = next (set_idx it (idx it + 1)) w.
Proof.
  intros Hn Hraw. unfold next. rewrite (next_loop_eq it VUndefined w).
  rewrite Hn, Hraw. simpl. unfold run_pipeline. rewrite run_stages_undefined.
  reflexivity.
Qed.

Lemma prev_steps_over (it : Iter W) (w : W) :
  has_prev it = true -> array_get (val it) (idx it - 1) = VUndefined ->
  prev it w = prev (set_idx it (idx it - 1)) w.
Proof.
  intros Hp Hraw. unfold prev. rewrite (prev_loop_eq it VUndefined w).
  rewrite Hp, Hraw. simpl. unfold run_pipeline. rewrite run_stages_undefined.
  reflexivity.
Qed.

Lemma collect_steps_over (it : Iter W) (w : W) :
  has_next it = true -> array_get (val it) (idx it) = VUndefined ->
  collect it w = collect (set_idx it (idx it + 1)) w.
Proof.
  intros Hn Hraw. unfold collect. rewrite (collect_loop_eq it [] w).
  rewrite Hn, (next_steps_over it w Hn Hraw).
  set (it1 := set_idx it (idx it + 1)).
  rewrite (collect_loop_eq it1 [] w).
  destruct (has_next it1) eqn:H1; [reflexivity|].
  rewrite (next_exhausted it1 w H1). simpl.
  rewrite collect_loop_eq, H1. reflexivity.
Qed.

(** *** With the arrays equally long, no call raises *)

Lemma next_loop_total : forall (n : nat) (it : Iter W) (nxt : jsval) (w : W),
  (ahead it <= n)%nat -> pipeline_ok it ->
  exists v it' w', next_loop it nxt w = Normal (v, it') w'.
Proof.
  induction n as [|n IH]; intros it nxt w Hn Hok;
    rewrite next_loop_eq;
    destruct (has_next it && is_undefined nxt) eqn:Hc; eauto.
  - apply andb_prop in Hc. destruct Hc as [Hc _].
    unfold has_next in Hc. apply Z.ltb_lt in Hc. unfold ahead in Hn. lia.
  - rewrite run_pipeline_pairs by exact Hok.
    destruct (run_pairs _ _ w) as [v1 w1].
    apply IH; [|exact Hok].
    apply andb_prop in Hc. destruct Hc as [Hc _].
    unfold has_next in Hc. apply Z.ltb_lt in Hc.
    unfold ahead in *. simpl. lia.
Qed.

Lemma next_total (it : Iter W) (w : W) :
  pipeline_ok it -> exists v it' w', next it w = Normal (v, it') w'.
Proof. intros Hok. apply (next_loop_total (ahead it)); auto. Qed.

Lemma prev_loop_total : forall (n : nat) (it : Iter W) (prv : jsval) (w : W),
  (behind it <= n)%nat -> pipeline_ok it ->
  exists v it' w', prev_loop it prv w = Normal (v, it') w'.
Proof.
  induction n as [|n IH]; intros it prv w Hn Hok;
    rewrite prev_loop_eq;
    destruct (has_prev it && is_undefined prv) eqn:Hc; eauto.
  - apply andb_prop in Hc. destruct Hc as [Hc _].
    unfold has_prev in Hc. apply Z.gtb_lt in Hc. unfold behind in Hn. lia.
  - rewrite run_pipeline_pairs by exact Hok.
    destruct (run_pairs _ _ w) as [v1 w1].
    apply IH; [|exact Hok].
    apply andb_prop in Hc. destruct Hc as [Hc _].
    unfold has_prev in Hc. apply Z.gtb_lt in Hc.
    unfold behind in *. simpl. lia.
Qed.

Lemma next_keeps (it : Iter W) (w : W) :
  pipeline_ok it ->
  exists v it' w', next it w = Normal (v, it') w' /\ same_pipeline it it'.
Proof.
  intros Hok. destruct (next_total it w Hok) as (v & it' & w' & H).
  exists v, it', w'. split; [exact H|].
  apply (next_loop_frame (ahead it) _ _ _ _ _ _ (Nat.le_refl _) H).
Qed.

Lemma prev_keeps (it : Iter W) (w : W) :
  pipeline_ok it ->
  exists v it' w', prev it w = Normal (v, it') w' /\ same_pipeline it it'.
Proof.
  intros Hok.
  destruct (prev_loop_total (behind it) it VUndefined w (Nat.le_refl _) Hok)
    as (v & it' & w' & H).
  exists v, it', w'. split; [exact H|].
  apply (prev_loop_frame (behind it) _ _ _ _ _ _ (Nat.le_refl _) H).
Qed.

(** *** collect over the raw elements ahead *)

Lemma next_collect_raws : forall (n : nat) (it : Iter W) (acc : list jsval) (w : W),
  (ahead it <= n)%nat -> pipeline_ok it ->
  exists v it' w',
    next_loop it VUndefined w = Normal (v, it') w' /\
    collect_raws (stages it) (skipn (Z.to_nat (idx it)) (val it)) acc w =
    collect_raws (stages it) (skipn (Z.to_nat (idx it')) (val it))
      (if is_undefined v then acc else acc ++ [v]) w'.
Proof.
  induction n as [|n IH]; intros it acc w Hn Hok;
    rewrite next_loop_eq; rewrite andb_true_r;
    destruct (has_next it) eqn:Hc.
  - apply has_next_true in Hc. unfold ahead in Hn. lia.
  - exists VUndefined, it, w. split; reflexivity.
  - apply has_next_true in Hc.
    rewrite run_pipeline_pairs by exact Hok.
    change (stages (set_idx it (idx it + 1))) with (stages it).
    assert (Hn1 : (ahead (set_idx it (idx it + 1)) <= n)%nat)
      by (unfold ahead in *; simpl; lia).
    destruct (Z.neg_nonneg_cases (idx it)) as [Hneg|Hpos].
    + rewrite array_get_negative by exact Hneg.
      rewrite run_pairs_undefined.
      destruct (IH (set_idx it (idx it + 1)) acc w Hn1 Hok)
        as (v & it' & w' & Hnx & Hcr).
      exists v, it', w'. split; [exact Hnx|].
      simpl in Hcr. change (stages (set_idx it (idx it + 1))) with (stages it) in Hcr.
      replace (Z.to_nat (idx it)) with (Z.to_nat (idx it + 1)) by lia.
      exact Hcr.
    + rewrite (skipn_array_get (val it) (idx it)) by lia.
      simpl collect_raws.
      destruct (run_pairs (stages it) (array_get (val it) (idx it)) w) as [v1 w1].
      destruct (is_undefined v1) eqn:Hu.
      * apply is_undefined_true in Hu. subst v1.
        destruct (IH (set_idx it (idx it + 1)) acc w1 Hn1 Hok)
          as (v & it' & w' & Hnx & Hcr).
        exists v, it', w'. split; [exact Hnx|exact Hcr].
      * exists v1, (set_idx it (idx it + 1)), w1.
        rewrite next_loop_eq, Hu, andb_false_r. split; reflexivity.
  - exists VUndefined, it, w. split; reflexivity.
Qed.

Lemma collect_loop_raws : forall (n : nat) (it : Iter W) (acc : list jsval) (w : W),
  (ahead it <= n)%nat -> pipeline_ok it ->
  exists it',
    collect_loop it acc w =
      Normal (fst (collect_raws (stages it) (skipn (Z.to_nat (idx it)) (val it)) acc w), it')
             (snd (collect_raws (stages it) (skipn (Z.to_nat (idx it)) (val it)) acc w)) /\
    same_pipeline it it' /\ idx it <= idx it' /\ has_next it' = false.
Proof.
  induction n as [|n IH]; intros it acc w Hn Hok;
    rewrite collect_loop_eq; destruct (has_next it) eqn:Hc.
  - apply has_next_true in Hc. unfold ahead in Hn. lia.
  - apply has_next_false in Hc. rewrite skipn_exhausted by exact Hc.
    exists it. simpl. unfold same_pipeline. rewrite has_next_false.
    repeat split; auto; lia.
  - destruct (next_collect_raws (S n) it acc w Hn Hok) as (v & it1 & w1 & Hnx & Hcr).
    unfold next. rewrite Hnx, Hcr.
    pose proof (next_loop_frame (S n) _ _ _ _ _ _ Hn Hnx) as (Hsame & Hle & Hlt & _).
    rewrite Hc in Hlt. specialize (Hlt eq_refl).
    assert (Hn1 : (ahead it1 <= n)%nat).
    { apply has_next_true in Hc. destruct Hsame as (Hv & _).
      unfold ahead in *. rewrite Hv. lia. }
    destruct (IH it1 (if is_undefined v then acc else acc ++ [v]) w1 Hn1
                (same_pipeline_ok _ _ Hsame Hok))
      as (it' & Hcl & Hsame' & Hle' & Hx).
    rewrite (same_pipeline_stages _ _ Hsame) in Hcl.
    destruct Hsame as (Hv & Hh & Hcb). rewrite Hv in Hcl.
    exists it'. split; [exact Hcl|].
    destruct Hsame' as (Hv' & Hh' & Hcb').
    unfold same_pipeline. repeat split; try congruence; lia.
  - apply has_next_false in Hc. rewrite skipn_exhausted by exact Hc.
    exists it. simpl. unfold same_pipeline. rewrite has_next_false.
    repeat split; auto; lia.
Qed.

Lemma collect_raws_spec (it : Iter W) (w : W) :
  pipeline_ok it ->
  exists it',
    collect it w =
      Normal (fst (collect_raws (stages it) (skipn (Z.to_nat (idx it)) (val it)) [] w), it')
             (snd (collect_raws (stages it) (skipn (Z.to_nat (idx it)) (val it)) [] w)) /\
    same_pipeline it it' /\ idx it <= idx it' /\ has_next it' = false.
Proof. intros Hok. apply (collect_loop_raws (ahead it)); auto. Qed.

Lemma collect_keeps (it : Iter W) (w : W) :
  pipeline_ok it ->
  exists vs it' w', collect it w = Normal (vs, it') w' /\ same_pipeline it it'.
Proof.
  intros Hok. destruct (collect_raws_spec it w Hok) as (it' & H & Hs & _).
  eexists _, it', _. split; [exact H|exact Hs].
Qed.

Lemma collect_raws_no_stages : forall (raws acc : list jsval) (w : W),
  collect_raws [] raws acc w = (acc ++ defined_of raws, w).
Proof.
  induction raws as [|r raws IH]; intros acc w; simpl.
  - rewrite app_nil_r. reflexivity.
  - rewrite IH. destruct (is_undefined r); simpl; [reflexivity|].
    rewrite <- app_assoc. reflexivity.
Qed.

Lemma collect_no_stages (it : Iter W) (w : W) :
  no_stages it ->
  exists it',
    collect it w = Normal (defined_of (skipn (Z.to_nat (idx it)) (val it)), it') w.
Proof.
  intros [Hho Hcb].
  assert (Hok : pipeline_ok it) by (unfold pipeline_ok; rewrite Hho, Hcb; reflexivity).
  destruct (collect_raws_spec it w Hok) as (it' & Hc & _).
  exists it'. rewrite Hc. unfold stages. rewrite Hho. simpl combine.
  rewrite collect_raws_no_stages. reflexivity.
Qed.

(** *** What comes out of the pipeline *)







End Loops.

(** ** map then collect *)

Section MapCollect.

Context {W : Type}.

Lemma collect_raws_map (f : callback_fn W) : forall (vals acc : list jsval) (w : W),
  (forall x, In x vals -> x <> VUndefined) ->
  (forall x w0, In x vals -> fst (f x w0) <> VUndefined) ->
  collect_raws [(_map, f)] vals acc w =
  (acc ++ fst (elementwise f vals w), snd (elementwise f vals w)).
Proof.
  induction vals as [|x vals IH]; intros acc w Hx Hf; simpl.
  - rewrite app_nil_r. reflexivity.
  - assert (Hxu : is_undefined x = false)
      by (apply is_undefined_false, Hx; left; reflexivity).
    rewrite Hxu. unfold _map at 1.
    pose proof (Hf x w (or_introl eq_refl)) as Hy.
    destruct (f x w) as [y w1]. simpl in Hy.
    apply is_undefined_false in Hy. rewrite Hy.
    rewrite IH;
      [| intros; apply Hx; right; assumption
       | intros; apply Hf; right; assumption].
    destruct (elementwise f vals w1) as [ys w2]. simpl.
    rewrite <- app_assoc. reflexivity.
Qed.

(** C1, as amended: on a fresh cursor over a collection with no
    [undefined] element, and for a function [f] that returns [undefined]
    on none of the elements, [map(f)] then [collect()] returns [f] applied
    element-wise, in the original order; the map stage returns the result
    of [f] unchanged, so it yields [undefined] only where [f] does. *)
Theorem map_collect_elementwise (vals : list jsval) (f : callback_fn W) (w : W) :
  (forall x, In x vals -> x <> VUndefined) ->
  (forall x w0, In x vals -> fst (f x w0) <> VUndefined) ->
  map_collect_is_elementwise vals f w /\
  (forall x w0, _map f x w0 = f x w0).
Proof.
  intros Hx Hf. split; [|reflexivity].
  unfold map_collect_is_elementwise.
  assert (Hok : pipeline_ok (map f (new_Iter (Some vals)))) by reflexivity.
  destruct (collect_raws_spec _ w Hok) as (it' & Hc & _).
  exists it'. rewrite Hc.
  change (stages (map f (new_Iter (Some vals)))) with [(@_map W, f)].
  change (skipn _ _) with vals.
  rewrite (collect_raws_map f vals [] w Hx Hf). reflexivity.
Qed.

End MapCollect.

Lemma map_collect_elementwise_witness :
  map_collect_is_elementwise
    [VNum 1; VNum 5; VNum 3; VNum 9; VNum 7] (pure_fn double) tt /\
  fst (elementwise (pure_fn double) [VNum 1; VNum 5; VNum 3; VNum 9; VNum 7] tt) =
    [VNum 2; VNum 10; VNum 6; VNum 18; VNum 14].
Proof.
  split; [|reflexivity].
  apply (map_collect_elementwise
           [VNum 1; VNum 5; VNum 3; VNum 9; VNum 7] (pure_fn double) tt).
  - intros x Hin. simpl in Hin.
    repeat (destruct Hin as [<- | Hin]; [discriminate|]). destruct Hin.
  - intros x w0 Hin. simpl in Hin.
    repeat (destruct Hin as [<- | Hin]; [discriminate|]). destruct Hin.
Defined.

(** C1 as first stated fails: a function that returns [undefined] has its
    result dropped by [collect], and an [undefined] element never reaches
    the function. *)
Lemma map_collect_elementwise_counterexample :
  ~ map_collect_is_elementwise [VNum 1] (pure_fn (fun _ => VUndefined)) tt /\
  ~ map_collect_is_elementwise [VUndefined] (pure_fn (fun _ => VNum 7)) tt.
Proof.
  split; intros [it' H]; vm_compute in H; discriminate H.
Qed.

(** ** some *)

Section Some.

Context {W : Type}.

(** [some] is [next] on the cursor with the filter stage pushed, its
    result converted to a boolean. *)
Lemma some_next (fn : callback_fn W) (it : Iter W) (w : W)
    (v : jsval) (it' : Iter W) (w' : W) :
  next (filter fn it) w = Normal (v, it') w' ->
  some fn it w = Normal (truthy v, it') w'.
Proof. unfold some, filter. intros ->. reflexivity. Qed.

End Some.

(** C2 at the array [[0]] with [fn = v => v === 0]: the [next()] call
    inside [some] produces the value [0], which passes the filter, and
    [some] returns [false] all the same, because [!!0] is [false]. *)
Theorem some_false_on_produced_zero :
  let it1 := mkIter 1 [VNum 0] [_filter] [pure_fn is_zero] in
  next (filter (pure_fn is_zero) (new_Iter (Some [VNum 0]))) tt
    = Normal (VNum 0, it1) tt /\
  some (pure_fn is_zero) (new_Iter (Some [VNum 0])) tt
    = Normal (false, it1) tt.
Proof. split; reflexivity. Qed.

(** ** skip *)

Section Skip.

Context {W : Type}.

Lemma set_cell_length : forall (cs : list nat) (c x : nat),
  length (set_cell c x cs) = length cs.
Proof.
  induction cs as [|y cs IH]; intros [|c] x; simpl; auto.
Qed.

Lemma set_cell_nth : forall (cs : list nat) (c x : nat),
  (c < length cs)%nat -> nth c (set_cell c x cs) O = x.
Proof.
  induction cs as [|y cs IH]; intros [|c] x H; simpl in *; try lia; auto.
  apply IH. lia.
Qed.

Lemma collect_raws_skip (n c : nat) :
  forall (raws acc : list jsval) (w : W) (cs : list nat),
  (c < length cs)%nat ->
  (forall x, In x raws -> x <> VUndefined) ->
  exists cs',
    collect_raws [(_filter, skip_stage n c)] raws acc (w, cs) =
    (acc ++ skipn (n - nth c cs O) raws, (w, cs')).
Proof.
  induction raws as [|r raws IH]; intros acc w cs Hc Hx.
  - exists cs. simpl. rewrite skipn_nil, app_nil_r. reflexivity.
  - assert (Hr : is_undefined r = false)
      by (apply is_undefined_false, Hx; left; reflexivity).
    cbn [collect_raws run_pairs]. rewrite Hr.
    unfold _filter at 1. cbn [skip_stage truthy].
    assert (Hc' : (c < length (set_cell c (S (nth c cs O)) cs))%nat)
      by (rewrite set_cell_length; exact Hc).
    assert (Hx' : forall x, In x raws -> x <> VUndefined)
      by (intros x Hin; apply Hx; right; exact Hin).
    destruct (n <=? nth c cs O)%nat eqn:Hle.
    + apply Nat.leb_le in Hle. rewrite Hr.
      destruct (IH (acc ++ [r]) w _ Hc' Hx') as (cs' & Hcr).
      exists cs'. rewrite Hcr. rewrite set_cell_nth by exact Hc.
      replace (n - S (nth c cs O))%nat with O by lia.
      replace (n - nth c cs O)%nat with O by lia.
      simpl. rewrite <- app_assoc. reflexivity.
    + apply Nat.leb_gt in Hle. cbn [is_undefined].
      destruct (IH acc w _ Hc' Hx') as (cs' & Hcr).
      exists cs'. rewrite Hcr. rewrite set_cell_nth by exact Hc.
      replace (n - nth c cs O)%nat with (S (n - S (nth c cs O))) by lia.
      reflexivity.
Qed.

(** C3, as amended: on a fresh cursor over a collection with no
    [undefined] element, [skip(n)] then [collect()] returns the
    collection without its first [n] elements, and nothing when [n] is
    the length or more. *)
Theorem skip_collect_drops_first (vals : list jsval) (n : nat) (wc : W * list nat) :
  (forall x, In x vals -> x <> VUndefined) ->
  skip_collect_drops vals n wc.
Proof.
  intros Hx. destruct wc as [w cs]. unfold skip_collect_drops. cbn [skip fst snd].
  set (it := filter (skip_stage n (length cs)) (new_Iter (Some vals))).
  assert (Hok : pipeline_ok it) by reflexivity.
  destruct (collect_raws_spec it (w, cs ++ [O]) Hok) as (it' & Hc & _).
  change (stages it) with [(@_filter (W * list nat), @skip_stage W n (length cs))] in Hc.
  change (skipn (Z.to_nat (idx it)) (val it)) with vals in Hc.
  destruct (collect_raws_skip n (length cs) vals [] w (cs ++ [O])) as (cs' & Hcr).
  - rewrite length_app. simpl. lia.
  - exact Hx.
  - rewrite Hcr in Hc. cbn [fst snd app] in Hc.
    rewrite app_nth2, Nat.sub_diag in Hc by lia. cbn [nth] in Hc.
    rewrite Nat.sub_0_r in Hc.
    eexists _, it', _. split; [exact Hc|]. split; [reflexivity|].
    apply skipn_all2.
Qed.

End Skip.

Lemma skip_collect_drops_first_witness :
  skip_collect_drops [VNum 1; VNum 5; VNum 3; VNum 9; VNum 7] 3 (tt, []).
Proof.
  apply (skip_collect_drops_first [VNum 1; VNum 5; VNum 3; VNum 9; VNum 7] 3 (tt, [])).
  intros x Hin. simpl in Hin.
  repeat (destruct Hin as [<- | Hin]; [discriminate|]). destruct Hin.
Defined.

Example skip_three :
  collect (fst (skip 3 (new_Iter (Some [VNum 1; VNum 5; VNum 3; VNum 9; VNum 7])) (tt, [])))
          (snd (skip 3 (new_Iter (Some [VNum 1; VNum 5; VNum 3; VNum 9; VNum 7])) (tt, [])))
  = Normal ([VNum 9; VNum 7],
            mkIter 5 [VNum 1; VNum 5; VNum 3; VNum 9; VNum 7]
              [_filter] [skip_stage 3 0]) (tt, [5%nat]).
Proof. reflexivity. Qed.

(** C3 as first stated fails: [collect] drops an [undefined] element even
    when nothing is skipped. *)
Lemma skip_collect_drops_first_counterexample :
  ~ skip_collect_drops [VUndefined; VNum 1] 0 (tt, []).
Proof.
  intros (vs & it' & wc' & H & Hvs & _).
  vm_compute in H. inversion H; subst. discriminate.
Qed.

(** ** every *)

Section Every.

Context {W : Type}.

Lemma defined_of_all (l : list jsval) :
  ~ In VUndefined l -> defined_of l = l.
Proof.
  induction l as [|x l IH]; intros H; [reflexivity|].
  unfold defined_of in *. simpl.
  destruct x; simpl; try (f_equal; apply IH; intros Hin; apply H; right; exact Hin).
  exfalso. apply H. left. reflexivity.
Qed.

Lemma every_collect (p : jsval -> jsval) :
  forall (n : nat) (it : Iter W) (acc : list jsval) (w : W) vs itc wc,
  (ahead it <= n)%nat ->
  collect_loop it acc w = Normal (vs, itc) wc ->
  exists new it' w',
    vs = acc ++ new /\
    every_loop (pure_fn p) it w
      = Normal (forallb (fun v => truthy (p v)) new, it') w' /\
    same_pipeline it it'.
Proof.
  induction n as [|n IH]; intros it acc w vs itc wc Hn H;
    rewrite collect_loop_eq in H; rewrite every_loop_eq;
    destruct (has_next it) eqn:Hc.
  - apply has_next_true in Hc. unfold ahead in Hn. lia.
  - inversion H; subst. exists [], itc, wc. rewrite app_nil_r.
    unfold same_pipeline. auto.
  - destruct (next it w) as [[t it1] w1|e] eqn:Hnx; [|discriminate].
    pose proof (next_advances it w t it1 w1 Hc Hnx) as Hlt.
    pose proof (next_loop_frame (ahead it) _ _ _ _ _ _ (Nat.le_refl _) Hnx)
      as (Hsame & _).
    apply IH in H; [|lia].
    destruct H as (new & it' & w' & Hvs & Hev & Hsame').
    destruct (is_undefined t) eqn:Hu.
    + exists new, it', w'. split; [exact Hvs|]. split; [exact Hev|].
      exact (same_pipeline_trans _ _ _ Hsame Hsame').
    + exists (t :: new). unfold pure_fn at 1. cbn [forallb].
      destruct (truthy (p t)).
      * exists it', w'. rewrite Hvs, <- app_assoc.
        split; [reflexivity|]. split; [exact Hev|].
        exact (same_pipeline_trans _ _ _ Hsame Hsame').
      * exists it1, w1. rewrite Hvs, <- app_assoc.
        split; [reflexivity|]. split; [reflexivity|exact Hsame].
  - inversion H; subst. exists [], itc, wc. rewrite app_nil_r.
    unfold same_pipeline. auto.
Qed.

(** C4: for a predicate [fn] without side effects, [every(fn)] returns
    [true] exactly when [fn] holds for every element that traversal from
    the current position produces (what [collect()] would return from
    there; with no stage registered, the elements ahead that are not
    [undefined]); it returns [true] when nothing is ahead; and the two
    pipeline arrays are as they were before the call.  With no stage
    registered and no [undefined] among the elements ahead these are all
    the elements ahead. *)
Theorem every_holds_for_remaining (p : jsval -> jsval) (it : Iter W) (w : W) :
  pipeline_ok it ->
  exists vs itc wc b it' w',
    collect it w = Normal (vs, itc) wc /\
    every (pure_fn p) it w = Normal (b, it') w' /\
    (b = true <-> forall v, In v vs -> truthy (p v) = true) /\
    (has_next it = false -> b = true) /\
    higher_order it' = higher_order it /\
    callback it' = callback it /\
    (no_stages it -> vs = defined_of (skipn (Z.to_nat (idx it)) (val it))) /\
    (no_stages it -> ~ In VUndefined (skipn (Z.to_nat (idx it)) (val it)) ->
     every_over_remaining p it w).
Proof.
  intros Hok.
  destruct (collect_keeps it w Hok) as (vs & itc & wc & Hc & _).
  destruct (every_collect p (ahead it) it [] w vs itc wc (Nat.le_refl _) Hc)
    as (new & it' & w' & Hvs & Hev & (_ & Hh & Hcb)).
  simpl in Hvs. subst new.
  assert (Hempty : has_next it = false ->
                   forallb (fun v => truthy (p v)) vs = true).
  { intros Hx. unfold every in Hev. rewrite every_loop_eq, Hx in Hev.
    inversion Hev. reflexivity. }
  assert (Hraw : no_stages it ->
                 vs = defined_of (skipn (Z.to_nat (idx it)) (val it))).
  { intros Hns. destruct (collect_no_stages it w Hns) as (it0 & Hc0).
    rewrite Hc in Hc0. inversion Hc0. reflexivity. }
  exists vs, itc, wc, (forallb (fun v => truthy (p v)) vs), it', w'.
  split; [exact Hc|]. split; [exact Hev|].
  split; [apply forallb_forall|].
  split; [exact Hempty|]. split; [exact Hh|]. split; [exact Hcb|].
  split; [exact Hraw|].
  intros Hns Hdef.
  exists (forallb (fun v => truthy (p v)) vs), it', w'.
  split; [exact Hev|].
  split; [|split; [exact Hempty|split; [exact Hh|exact Hcb]]].
  rewrite (Hraw Hns), (defined_of_all _ Hdef). apply forallb_forall.
Qed.

End Every.

Lemma every_holds_for_remaining_witness :
  exists vs itc wc b it' w',
    collect (mkIter 4 [VNum 1; VNum 5; VNum 3; VNum 9; VNum 7]
               [_filter] [pure_fn (greater_than 5)]) tt
      = Normal (vs, itc) wc /\
    every (pure_fn (greater_than 5))
          (mkIter 4 [VNum 1; VNum 5; VNum 3; VNum 9; VNum 7]
             [_filter] [pure_fn (greater_than 5)]) tt
      = Normal (b, it') w' /\
    (b = true <-> forall v, In v vs -> truthy (greater_than 5 v) = true) /\
    (has_next (mkIter 4 [VNum 1; VNum 5; VNum 3; VNum 9; VNum 7]
                 [_filter] [pure_fn (W := unit) (greater_than 5)]) = false ->
     b = true) /\
    higher_order it' = [_filter] /\
    callback it' = [pure_fn (greater_than 5)] /\
    (no_stages (mkIter 4 [VNum 1; VNum 5; VNum 3; VNum 9; VNum 7]
                  [_filter] [pure_fn (W := unit) (greater_than 5)]) ->
     vs = defined_of (skipn (Z.to_nat 4) [VNum 1; VNum 5; VNum 3; VNum 9; VNum 7])) /\
    (no_stages (mkIter 4 [VNum 1; VNum 5; VNum 3; VNum 9; VNum 7]
                  [_filter] [pure_fn (W := unit) (greater_than 5)]) ->
     ~ In VUndefined (skipn (Z.to_nat 4) [VNum 1; VNum 5; VNum 3; VNum 9; VNum 7]) ->
     every_over_remaining (greater_than 5)
       (mkIter 4 [VNum 1; VNum 5; VNum 3; VNum 9; VNum 7]
          [_filter] [pure_fn (greater_than 5)]) tt).
Proof.
  apply (every_holds_for_remaining (greater_than 5)
           (mkIter 4 [VNum 1; VNum 5; VNum 3; VNum 9; VNum 7]
              [_filter] [pure_fn (greater_than 5)]) tt).
  reflexivity.
Defined.

(** [every(v => v > 5)] on a fresh cursor over [[1, 5, 3, 9, 7]] stops
    at the first element; after [some(v => v > 5)] only the [7] is left
    and [every(v => v > 5)] holds. *)
Example every_on_fresh_and_after_some :
  every (pure_fn (greater_than 5))
        (new_Iter (Some [VNum 1; VNum 5; VNum 3; VNum 9; VNum 7])) tt
    = Normal (false, mkIter 1 [VNum 1; VNum 5; VNum 3; VNum 9; VNum 7] [] []) tt /\
  every (pure_fn (greater_than 5))
        (mkIter 4 [VNum 1; VNum 5; VNum 3; VNum 9; VNum 7]
           [_filter] [pure_fn (greater_than 5)]) tt
    = Normal (true, mkIter 5 [VNum 1; VNum 5; VNum 3; VNum 9; VNum 7]
                      [_filter] [pure_fn (greater_than 5)]) tt.
Proof. split; reflexivity. Qed.

(** C4 as first stated fails: [every(v => v > 0)] over [[undefined, 1]]
    returns [true] though the function does not hold for [undefined],
    which [next()] steps over; and behind a stage [filter(v => v > 5)]
    over [[1, 9]] [every(v => v > 5)] returns [true] though the function
    does not hold for the element [1], which the stage holds back. *)
Lemma every_holds_for_remaining_counterexample :
  ~ every_over_remaining (greater_than 0)
      (new_Iter (Some [VUndefined; VNum 1])) tt /\
  ~ every_over_remaining (greater_than 5)
      (filter (pure_fn (greater_than 5)) (new_Iter (Some [VNum 1; VNum 9]))) tt.
Proof.
  split; intros (b & it' & w' & H & [Hall _] & _);
    vm_compute in H; inversion H; subst b.
  - specialize (Hall eq_refl VUndefined (or_introl eq_refl)). discriminate.
  - specialize (Hall eq_refl (VNum 1) (or_introl eq_refl)). discriminate.
Qed.

(** ** Exhaustion *)

Section Exhaustion.

Context {W : Type}.

Lemma register_frame : forall (rs : list registration) (it : Iter W),
  pipeline_ok it ->
  pipeline_ok (register rs it) /\
  idx (register rs it) = idx it /\ val (register rs it) = val it.
Proof.
  induction rs as [|r rs IH]; intros it Hok; simpl.
  - auto.
  - destruct (IH (register_one it r)) as (H1 & H2 & H3).
    + destruct r; apply push_stage_ok; exact Hok.
    + repeat split; [exact H1| |]; destruct r; simpl in *; congruence.
Qed.

Lemma next_times_exhausted : forall (k : nat) (it : Iter W) (w : W),
  has_next it = false -> next_times k it w = Normal it w.
Proof.
  induction k as [|k IH]; intros it w H; simpl; [reflexivity|].
  rewrite next_exhausted by exact H. apply IH. exact H.
Qed.

Lemma next_times_ahead : forall (k : nat) (it : Iter W) (w : W),
  pipeline_ok it ->
  exists it' w',
    next_times k it w = Normal it' w' /\
    same_pipeline it it' /\ (ahead it' <= ahead it - k)%nat.
Proof.
  induction k as [|k IH]; intros it w Hok; simpl.
  - exists it, w. unfold same_pipeline. repeat split; auto. lia.
  - destruct (next_total it w Hok) as (v & it1 & w1 & Hnx). rewrite Hnx.
    pose proof (next_loop_frame (ahead it) _ _ _ _ _ _ (Nat.le_refl _) Hnx)
      as (Hsame & Hle & Hlt & _).
    destruct (IH it1 w1 (same_pipeline_ok _ _ Hsame Hok)) as (it' & w' & Hk & Hsame' & Ha).
    exists it', w'. split; [exact Hk|].
    destruct Hsame as (Hv & Hh & Hc). destruct Hsame' as (Hv' & Hh' & Hc').
    split; [unfold same_pipeline; repeat split; congruence|].
    rewrite andb_true_r in Hlt.
    destruct (has_next it) eqn:Hn.
    + specialize (Hlt eq_refl). apply has_next_true in Hn.
      unfold ahead in *. rewrite Hv in *. lia.
    + apply has_next_false in Hn. unfold ahead in *. rewrite Hv in *. lia.
Qed.

(** From any position that is not negative, as many calls as the array
    is long leave nothing ahead. *)
Lemma next_times_length_exhausts (it : Iter W) (w : W) :
  pipeline_ok it -> 0 <= idx it ->
  exists it' w',
    next_times (length (val it)) it w = Normal it' w' /\
    same_pipeline it it' /\ has_next it' = false.
Proof.
  intros Hok Hi.
  destruct (next_times_ahead (length (val it)) it w Hok) as (it' & w' & Hk & Hsame & Ha).
  exists it', w'. repeat split; try exact Hk; try apply Hsame.
  apply has_next_false. destruct Hsame as (Hv & _).
  unfold ahead, array_length in *. rewrite Hv in *. lia.
Qed.

(** C5: on a fresh cursor with any stages registered, as many [next()]
    calls as the array is long all return, after them [has_next()] is
    [false], and each [next()] call from then on returns [undefined],
    the cursor staying as it is. *)
Theorem exhausted_next_returns_undefined
    (v : option (list jsval)) (rs : list registration) (w : W) :
  let it := register rs (new_Iter v) in
  exists it' w',
    next_times (length (val it)) it w = Normal it' w' /\
    has_next it' = false /\
    forall k : nat,
      next_times k it' w' = Normal it' w' /\
      next it' w' = Normal (VUndefined, it') w'.
Proof.
  intros it.
  destruct (register_frame rs (new_Iter v) eq_refl) as (Hok & Hidx & _).
  fold it in Hok, Hidx.
  destruct (next_times_length_exhausts it w Hok) as (it' & w' & Hk & _ & Hx).
  - rewrite Hidx. simpl. lia.
  - exists it', w'. repeat split; auto.
    + apply next_times_exhausted. exact Hx.
    + apply next_exhausted. exact Hx.
Qed.

End Exhaustion.

Example exhausted_after_five :
  next_times 5
    (register [reg_map (pure_fn double)]
       (new_Iter (Some [VNum 1; VNum 5; VNum 3; VNum 9; VNum 7]))) tt
  = Normal (mkIter 5 [VNum 1; VNum 5; VNum 3; VNum 9; VNum 7]
              [_map] [pure_fn double]) tt.
Proof. reflexivity. Qed.

(** ** Undefined elements, and traversal with no stage registered *)

Section NoStages.

Context {W : Type}.

Lemma next_loop_no_stages : forall (n : nat) (it : Iter W) (w : W),
  (ahead it <= n)%nat -> higher_order it = [] ->
  exists v it',
    next_loop it VUndefined w = Normal (v, it') w /\
    v = hd VUndefined (defined_of (skipn (Z.to_nat (idx it)) (val it))) /\
    (v <> VUndefined -> array_get (val it) (idx it' - 1) = v).
Proof.
  induction n as [|n IH]; intros it w Hn Hho;
    rewrite next_loop_eq; rewrite andb_true_r;
    destruct (has_next it) eqn:Hc.
  - apply has_next_true in Hc. unfold ahead in Hn. lia.
  - apply has_next_false in Hc. rewrite skipn_exhausted by exact Hc.
    exists VUndefined, it. repeat split. congruence.
  - apply has_next_true in Hc.
    rewrite run_pipeline_no_stages by exact Hho.
    assert (Hn1 : (ahead (set_idx it (idx it + 1)) <= n)%nat)
      by (unfold ahead in *; simpl; lia).
    destruct (IH (set_idx it (idx it + 1)) w Hn1 Hho) as (v & it' & Hnx & Hv & Hraw).
    simpl in Hv, Hraw.
    destruct (Z.neg_nonneg_cases (idx it)) as [Hneg|Hpos].
    + rewrite array_get_negative by exact Hneg.
      exists v, it'. split; [exact Hnx|]. split; [|exact Hraw].
      replace (Z.to_nat (idx it)) with (Z.to_nat (idx it + 1)) by lia. exact Hv.
    + rewrite (skipn_array_get (val it) (idx it)) by lia.
      destruct (is_undefined (array_get (val it) (idx it))) eqn:Hu.
      * rewrite (is_undefined_true _ Hu).
        exists v, it'. split; [exact Hnx|]. split; [|exact Hraw].
        simpl. exact Hv.
      * exists (array_get (val it) (idx it)), (set_idx it (idx it + 1)).
        rewrite next_loop_eq, Hu, andb_false_r. split; [reflexivity|].
        simpl. rewrite Hu. simpl. split; [reflexivity|].
        intros _. f_equal. lia.
  - apply has_next_false in Hc. rewrite skipn_exhausted by exact Hc.
    exists VUndefined, it. repeat split. congruence.
Qed.

Lemma prev_loop_no_stages : forall (n : nat) (it : Iter W) (w : W),
  (behind it <= n)%nat -> higher_order it = [] ->
  exists v it',
    prev_loop it VUndefined w = Normal (v, it') w /\
    v = hd VUndefined (defined_of (rev (firstn (Z.to_nat (idx it)) (val it)))).
Proof.
  induction n as [|n IH]; intros it w Hn Hho;
    rewrite prev_loop_eq; rewrite andb_true_r;
    destruct (has_prev it) eqn:Hc.
  - apply has_prev_true in Hc. unfold behind in Hn. lia.
  - apply has_prev_false in Hc.
    replace (Z.to_nat (idx it)) with 0%nat by lia.
    exists VUndefined, it. split; reflexivity.
  - apply has_prev_true in Hc.
    rewrite run_pipeline_no_stages by exact Hho.
    rewrite (firstn_array_get (val it) (idx it)) by exact Hc.
    assert (Hn1 : (behind (set_idx it (idx it - 1)) <= n)%nat)
      by (unfold behind in *; simpl; lia).
    destruct (IH (set_idx it (idx it - 1)) w Hn1 Hho) as (v & it' & Hpv & Hv).
    simpl in Hv.
    destruct (is_undefined (array_get (val it) (idx it - 1))) eqn:Hu.
    + rewrite (is_undefined_true _ Hu).
      exists v, it'. split; [exact Hpv|]. simpl. exact Hv.
    + exists (array_get (val it) (idx it - 1)), (set_idx it (idx it - 1)).
      rewrite prev_loop_eq, Hu, andb_false_r. split; [reflexivity|].
      simpl. rewrite Hu. reflexivity.
  - apply has_prev_false in Hc.
    replace (Z.to_nat (idx it)) with 0%nat by lia.
    exists VUndefined, it. split; reflexivity.
Qed.

(** C6: with no stage registered, when [next()] returns an element, the
    [prev()] that follows returns that same element, which is the raw
    element just behind the position [next()] left. *)
Theorem next_then_prev_same_element (it : Iter W) (w : W)
    (v : jsval) (it' : Iter W) (w' : W) :
  no_stages it ->
  next it w = Normal (v, it') w' ->
  v <> VUndefined ->
  v = array_get (val it) (idx it' - 1) /\
  prev it' w' = Normal (v, set_idx it' (idx it' - 1)) w'.
Proof.
  intros [Hho _] Hnx Hv.
  destruct (next_loop_no_stages (ahead it) it w (Nat.le_refl _) Hho)
    as (v0 & it0 & Hnx0 & _ & Hraw).
  unfold next in Hnx. rewrite Hnx in Hnx0. inversion Hnx0; subst v0 it0.
  specialize (Hraw Hv).
  pose proof (next_loop_frame (ahead it) _ _ _ _ _ _ (Nat.le_refl _) Hnx)
    as ((Hval & Hh & _) & _).
  split; [symmetry; exact Hraw|].
  assert (Hpos : 0 < idx it').
  { destruct (Z.lt_ge_cases 0 (idx it')) as [H|H]; [exact H|].
    rewrite array_get_negative in Hraw by lia. congruence. }
  apply is_undefined_false in Hv.
  unfold prev. rewrite prev_loop_eq.
  apply has_prev_true in Hpos. rewrite Hpos. simpl.
  rewrite run_pipeline_no_stages by (simpl; congruence).
  rewrite Hval, Hraw.
  rewrite prev_loop_eq, Hv, andb_false_r. reflexivity.
Qed.

(** C9: an [undefined] element of the array is stepped over by
    [next()], [prev()] and [collect()] whatever the pipeline holds: the
    call goes on from the next position as if the element had been
    filtered out.  So with no stage registered [next()] returns the first
    element at or after the position that is not [undefined], [prev()]
    the last one before it, and [collect()] all those ahead, none of them
    [undefined]; an [undefined] result of [next()] or [prev()] means that
    nothing else is left in that direction. *)
Theorem undefined_elements_never_surface (it : Iter W) (w : W) :
  (has_next it = true -> array_get (val it) (idx it) = VUndefined ->
     next it w = next (set_idx it (idx it + 1)) w /\
     collect it w = collect (set_idx it (idx it + 1)) w) /\
  (has_prev it = true -> array_get (val it) (idx it - 1) = VUndefined ->
     prev it w = prev (set_idx it (idx it - 1)) w) /\
  (no_stages it ->
     let ahead_raw := skipn (Z.to_nat (idx it)) (val it) in
     let behind_raw := rev (firstn (Z.to_nat (idx it)) (val it)) in
     (exists it',
        next it w = Normal (hd VUndefined (defined_of ahead_raw), it') w /\
        (defined_of ahead_raw = [] -> has_next it' = false)) /\
     (exists it',
        prev it w = Normal (hd VUndefined (defined_of behind_raw), it') w /\
        (defined_of behind_raw = [] -> has_prev it' = false)) /\
     (exists it',
        collect it w = Normal (defined_of ahead_raw, it') w /\
        ~ In VUndefined (defined_of ahead_raw))).
Proof.
  split; [|split].
  - intros Hn Hraw. split;
      [apply next_steps_over | apply collect_steps_over]; assumption.
  - intros Hp Hraw. apply prev_steps_over; assumption.
  - intros [Hho Hcb] ahead_raw behind_raw. repeat split.
    + destruct (next_loop_no_stages (ahead it) it w (Nat.le_refl _) Hho)
        as (v & it' & Hnx & Hv & _).
      exists it'. fold ahead_raw in Hv. rewrite <- Hv. split; [exact Hnx|].
      intros He. rewrite He in Hv. simpl in Hv. subst v.
      pose proof (next_loop_frame (ahead it) _ _ _ _ _ _ (Nat.le_refl _) Hnx)
        as (_ & _ & _ & Hx).
      rewrite andb_true_r in Hx. exact Hx.
    + destruct (prev_loop_no_stages (behind it) it w (Nat.le_refl _) Hho)
        as (v & it' & Hpv & Hv).
      exists it'. fold behind_raw in Hv. rewrite <- Hv. split; [exact Hpv|].
      intros He. rewrite He in Hv. simpl in Hv. subst v.
      pose proof (prev_loop_frame (behind it) _ _ _ _ _ _ (Nat.le_refl _) Hpv)
        as (_ & _ & _ & Hx).
      rewrite andb_true_r in Hx. exact Hx.
    + destruct (collect_no_stages it w (conj Hho Hcb)) as (it' & Hc).
      exists it'. split; [exact Hc|apply defined_of_no_undefined].
Qed.

End NoStages.

Lemma next_then_prev_same_element_witness :
  VNum 5 = array_get [VNum 1; VUndefined; VNum 5; VNum 3] (3 - 1) /\
  prev (mkIter 3 [VNum 1; VUndefined; VNum 5; VNum 3] [] []) tt =
  Normal (VNum 5, mkIter 2 [VNum 1; VUndefined; VNum 5; VNum 3] [] []) tt.
Proof.
  apply (next_then_prev_same_element
           (mkIter 1 [VNum 1; VUndefined; VNum 5; VNum 3] [] []) tt
           (VNum 5) (mkIter 3 [VNum 1; VUndefined; VNum 5; VNum 3] [] []) tt).
  - split; reflexivity.
  - reflexivity.
  - discriminate.
Defined.

Lemma undefined_elements_never_surface_witness :
  (next (mkIter 0 [VUndefined; VNum 1; VUndefined] [_map] [pure_fn double]) tt =
   next (mkIter 1 [VUndefined; VNum 1; VUndefined] [_map] [pure_fn double]) tt /\
   collect (mkIter 0 [VUndefined; VNum 1; VUndefined] [_map] [pure_fn double]) tt =
   collect (mkIter 1 [VUndefined; VNum 1; VUndefined] [_map] [pure_fn double]) tt) /\
  prev (mkIter 3 [VUndefined; VNum 1; VUndefined] [_map] [pure_fn double]) tt =
  prev (mkIter 2 [VUndefined; VNum 1; VUndefined] [_map] [pure_fn double]) tt /\
  (exists it',
     next (new_Iter (Some [VUndefined; VNum 1; VUndefined])) tt =
       Normal (VNum 1, it') tt /\
     (defined_of [VUndefined; VNum 1; VUndefined] = [] -> has_next it' = false)) /\
  (exists it',
     prev (new_Iter (Some [VUndefined; VNum 1; VUndefined])) tt =
       Normal (VUndefined, it') tt /\
     (@nil jsval = [] -> has_prev it' = false)) /\
  (exists it',
     collect (new_Iter (Some [VUndefined; VNum 1; VUndefined])) tt =
       Normal ([VNum 1], it') tt /\
     ~ In VUndefined [VNum 1]).
Proof.
  split; [|split].
  - apply (proj1 (undefined_elements_never_surface
             (mkIter 0 [VUndefined; VNum 1; VUndefined] [_map] [pure_fn double]) tt));
      reflexivity.
  - apply (proj1 (proj2 (undefined_elements_never_surface
             (mkIter 3 [VUndefined; VNum 1; VUndefined] [_map] [pure_fn double]) tt)));
      reflexivity.
  - apply (proj2 (proj2 (undefined_elements_never_surface
             (new_Iter (Some [VUndefined; VNum 1; VUndefined])) tt))).
    split; reflexivity.
Defined.

(** ** peek *)

Section Peek.

Context {W : Type}.

(** C7: [peek()] returns the raw element at index [idx + 1], whatever
    the pipeline holds; the cursor, its position included, and the world
    are as before, so no stage and no user function ran. *)
Theorem peek_raw_one_ahead (it : Iter W) (w : W) :
  peek it w = Normal (array_get (val it) (idx it + 1), it) w /\
  (forall hs cbs,
     peek (mkIter (idx it) (val it) hs cbs) w =
     Normal (array_get (val it) (idx it + 1), mkIter (idx it) (val it) hs cbs) w) /\
  array_get (val it) (idx it + 1) =
    (if idx it + 1 <? 0 then VUndefined
     else nth_default VUndefined (val it) (Z.to_nat (idx it + 1))).
Proof.
  repeat split. unfold array_get.
  destruct (idx it + 1 <? 0); [reflexivity|].
  unfold nth_default.
  destruct (nth_error (val it) (Z.to_nat (idx it + 1))) eqn:E.
  - apply nth_error_nth. exact E.
  - apply nth_overflow. apply nth_error_None. exact E.
Qed.

End Peek.

(** On [[1, 5, 3]] a fresh cursor peeks at [5], the element [next()] would
    return second. *)
Example peek_fresh :
  peek (new_Iter (Some [VNum 1; VNum 5; VNum 3])) tt
  = Normal (VNum 5, new_Iter (Some [VNum 1; VNum 5; VNum 3])) tt.
Proof. reflexivity. Qed.

(** ** some and find leave their stage behind *)

Section Narrowing.

Context {W : Type}.





Lemma drop_result_inv {A : Type} (c : completion W (A * Iter W)) it' w' :
  drop_result c = Normal it' w' -> exists a, c = Normal (a, it') w'.
Proof.
  destruct c as [[a it0] w0|e]; simpl; intros H; [|discriminate].
  inversion H; subst. exists a. reflexivity.
Qed.







End Narrowing.


(** [some(v => v > 7)] twice on [[1, 5, 3, 9, 7]]: the first call stops
    behind the [9]; the second, on what is left, finds nothing. *)
Example some_twice :
  exists it1 it2,
    some (pure_fn (greater_than 7))
      (new_Iter (Some [VNum 1; VNum 5; VNum 3; VNum 9; VNum 7])) tt
      = Normal (true, it1) tt /\
    idx it1 = 4 /\
    some (pure_fn (greater_than 7)) it1 tt = Normal (false, it2) tt /\
    idx it2 = 5.
Proof. eexists _, _. repeat split. Qed.

(** ** The two pipeline arrays stay paired *)

Section Pairing.

Context {W : Type}.

Lemma exec_step (o : operation) (it : Iter W) (w : W) :
  pipeline_ok it ->
  exists it' w',
    exec o it w = Normal it' w' /\ pipeline_ok it' /\
    stages it' = registered_by o (stages it).
Proof.
  intros Hok. destruct o as [|fn|fn|fn|fn|fn| | | |]; simpl.
  - exists (reset it), w. repeat split.
  - exists (map fn it), w. repeat split;
      [apply push_stage_ok | apply stages_push]; exact Hok.
  - exists (filter fn it), w. repeat split;
      [apply push_stage_ok | apply stages_push]; exact Hok.
  - exists (tap fn it), w. repeat split;
      [apply push_stage_ok | apply stages_push]; exact Hok.
  - destruct (next_keeps (filter fn it) w (push_stage_ok _ fn it Hok))
      as (v & it' & w' & H & Hs).
    rewrite (some_next _ _ _ _ _ _ H). exists it', w'. split; [reflexivity|].
    split; [exact (same_pipeline_ok _ _ Hs (push_stage_ok _ fn it Hok))|].
    rewrite (same_pipeline_stages _ _ Hs). apply stages_push. exact Hok.
  - unfold find.
    destruct (next_keeps (push_stage _filter fn it) w (push_stage_ok _ fn it Hok))
      as (v & it' & w' & H & Hs).
    rewrite H. exists it', w'. split; [reflexivity|].
    split; [exact (same_pipeline_ok _ _ Hs (push_stage_ok _ fn it Hok))|].
    rewrite (same_pipeline_stages _ _ Hs). apply stages_push. exact Hok.
  - destruct (next_keeps it w Hok) as (v & it' & w' & H & Hs).
    rewrite H. exists it', w'. split; [reflexivity|].
    split; [exact (same_pipeline_ok _ _ Hs Hok) | exact (same_pipeline_stages _ _ Hs)].
  - destruct (prev_keeps it w Hok) as (v & it' & w' & H & Hs).
    rewrite H. exists it', w'. split; [reflexivity|].
    split; [exact (same_pipeline_ok _ _ Hs Hok) | exact (same_pipeline_stages _ _ Hs)].
  - exists it, w. repeat split. exact Hok.
  - destruct (collect_keeps it w Hok) as (v & it' & w' & H & Hs).
    rewrite H. exists it', w'. split; [reflexivity|].
    split; [exact (same_pipeline_ok _ _ Hs Hok) | exact (same_pipeline_stages _ _ Hs)].
Qed.

Lemma exec_all_steps : forall (ops : list operation) (it : Iter W) (w : W),
  pipeline_ok it ->
  exists it' w',
    exec_all ops it w = Normal it' w' /\ pipeline_ok it' /\
    stages it' = fold_left (fun ps o => registered_by o ps) ops (stages it).
Proof.
  induction ops as [|o ops IH]; intros it w Hok; simpl.
  - exists it, w. repeat split. exact Hok.
  - destruct (exec_step o it w Hok) as (it1 & w1 & He & Hok1 & Hst).
    rewrite He. destruct (IH it1 w1 Hok1) as (it' & w' & Ha & Hok' & Hst').
    exists it', w'. rewrite <- Hst. auto.
Qed.

(** C10: after construction and any sequence of method calls, none of
    which raises, [higher_order] and [callback] have the same length;
    read in pairs by index they hold each user function with the private
    method of the call that registered it; and the pipeline loop applies
    just these pairs, in order. *)
Theorem pipeline_arrays_stay_paired
    (v : option (list jsval)) (ops : list operation) (w : W) :
  exists it' w',
    exec_all ops (new_Iter v) w = Normal it' w' /\
    length (higher_order it') = length (callback it') /\
    combine (higher_order it') (callback it') = registered ops /\
    forall x w0,
      run_pipeline it' x w0 =
      let (y, w1) := run_pairs (registered ops) x w0 in Normal y w1.
Proof.
  destruct (exec_all_steps ops (new_Iter v) w eq_refl) as (it' & w' & He & Hok & Hst).
  exists it', w'. repeat split; auto.
  intros x w0. rewrite run_pipeline_pairs by exact Hok. rewrite Hst. reflexivity.
Qed.

End Pairing.

Example chain_registers_pairs :
  registered (W := unit)
    [op_map (pure_fn double); op_next; op_find (pure_fn is_zero); op_collect]
  = [(_map, pure_fn double); (_filter, pure_fn is_zero)].
Proof. reflexivity. Qed.

(** * Part IV: further properties *)

(** ** The loops, one raw element at a time *)

Section ElementByElement.

Context {W : Type}.

Lemma run_pipeline_set_idx (it : Iter W) (i : Z) (v : jsval) (w : W) :
  run_pipeline (set_idx it i) v w = run_pipeline it v w.
Proof. reflexivity. Qed.

Lemma next_step (it : Iter W) (w : W) :
  has_next it = true ->
  next it w =
  match run_pipeline it (array_get (val it) (idx it)) w with
  | Throw e => Throw e
  | Normal v w' =>
      if is_undefined v then next (set_idx it (idx it + 1)) w'
      else Normal (v, set_idx it (idx it + 1)) w'
  end.
Proof.
  intros Hn. unfold next. rewrite (next_loop_eq it VUndefined w), Hn. simpl.
  rewrite run_pipeline_set_idx.
  destruct (run_pipeline it _ w) as [v w'|e]; [|reflexivity].
  destruct (is_undefined v) eqn:Hu.
  - rewrite (is_undefined_true _ Hu). reflexivity.
  - rewrite next_loop_eq, Hu, andb_false_r. reflexivity.
Qed.

Lemma prev_step (it : Iter W) (w : W) :
  has_prev it = true ->
  prev it w =
  match run_pipeline it (array_get (val it) (idx it - 1)) w with
  | Throw e => Throw e
  | Normal v w' =>
      if is_undefined v then prev (set_idx it (idx it - 1)) w'
      else Normal (v, set_idx it (idx it - 1)) w'
  end.
Proof.
  intros Hp. unfold prev. rewrite (prev_loop_eq it VUndefined w), Hp. simpl.
  rewrite run_pipeline_set_idx.
  destruct (run_pipeline it _ w) as [v w'|e]; [|reflexivity].
  destruct (is_undefined v) eqn:Hu.
  - rewrite (is_undefined_true _ Hu). reflexivity.
  - rewrite prev_loop_eq, Hu, andb_false_r. reflexivity.
Qed.

Lemma collect_loop_step (it : Iter W) (acc : list jsval) (w : W) :
  has_next it = true ->
  collect_loop it acc w =
  match run_pipeline it (array_get (val it) (idx it)) w with
  | Throw e => Throw e
  | Normal v w' =>
      collect_loop (set_idx it (idx it + 1))
        (if is_undefined v then acc else acc ++ [v]) w'
  end.
Proof.
  intros Hn. rewrite collect_loop_eq, Hn, (next_step it w Hn).
  destruct (run_pipeline it _ w) as [v w'|e]; [|reflexivity].
  destruct (is_undefined v) eqn:Hu; [|rewrite Hu; reflexivity].
  set (it1 := set_idx it (idx it + 1)).
  rewrite (collect_loop_eq it1 acc w').
  destruct (has_next it1) eqn:H1; [reflexivity|].
  rewrite (next_exhausted it1 w' H1). simpl.
  rewrite collect_loop_eq, H1. reflexivity.
Qed.

Lemma drain_set_idx (it : Iter W) (i : Z) : forall raws acc (w : W),
  drain (set_idx it i) raws acc w = drain it raws acc w.
Proof.
  induction raws as [|r rs IH]; intros acc w; simpl; [reflexivity|].
  rewrite run_pipeline_set_idx.
  destruct (run_pipeline it r w) as [v w'|e]; [apply IH|reflexivity].
Qed.

Lemma run_pipeline_undefined (it : Iter W) (w : W) :
  run_pipeline it VUndefined w = Normal VUndefined w.
Proof. unfold run_pipeline. apply run_stages_undefined. Qed.

Lemma set_idx_same (it : Iter W) : set_idx it (idx it) = it.
Proof. destruct it; reflexivity. Qed.

Lemma collect_loop_drain : forall (n : nat) (it : Iter W) (acc : list jsval) (w : W),
  (ahead it <= n)%nat ->
  collect_loop it acc w =
  match drain it (skipn (Z.to_nat (idx it)) (val it)) acc w with
  | Throw e => Throw e
  | Normal vs w' =>
      Normal (vs, set_idx it (Z.max (idx it) (array_length (val it)))) w'
  end.
Proof.
  induction n as [|n IH]; intros it acc w Hn;
    destruct (has_next it) eqn:Hc.
  - apply has_next_true in Hc. unfold ahead in Hn. lia.
  - rewrite collect_loop_eq, Hc. apply has_next_false in Hc.
    rewrite skipn_exhausted by exact Hc. simpl.
    rewrite Z.max_l by lia. rewrite set_idx_same. reflexivity.
  - rewrite (collect_loop_step it acc w Hc). apply has_next_true in Hc.
    assert (Hn1 : (ahead (set_idx it (idx it + 1)) <= n)%nat)
      by (unfold ahead in *; simpl; lia).
    assert (Hmax : set_idx (set_idx it (idx it + 1))
                     (Z.max (idx it + 1) (array_length (val it))) =
                   set_idx it (Z.max (idx it) (array_length (val it)))).
    { unfold set_idx. simpl. f_equal. lia. }
    destruct (Z.neg_nonneg_cases (idx it)) as [Hneg|Hpos].
    + rewrite array_get_negative by exact Hneg.
      rewrite run_pipeline_undefined. simpl is_undefined. cbv iota.
      rewrite (IH _ acc w Hn1). simpl idx. simpl val.
      rewrite drain_set_idx, Hmax.
      replace (Z.to_nat (idx it + 1)) with (Z.to_nat (idx it)) by lia.
      reflexivity.
    + rewrite (skipn_array_get (val it) (idx it)) by lia. simpl drain.
      destruct (run_pipeline it _ w) as [v w'|e]; [|reflexivity].
      rewrite (IH _ _ w' Hn1). simpl idx. simpl val.
      rewrite drain_set_idx, Hmax. reflexivity.
  - rewrite collect_loop_eq, Hc. apply has_next_false in Hc.
    rewrite skipn_exhausted by exact Hc. simpl.
    rewrite Z.max_l by lia. rewrite set_idx_same. reflexivity.
Qed.

Lemma drain_acc (it : Iter W) : forall raws acc (w : W),
  drain it raws acc w =
  match drain it raws [] w with
  | Throw e => Throw e
  | Normal vs w' => Normal (acc ++ vs) w'
  end.
Proof.
  induction raws as [|r rs IH]; intros acc w; simpl.
  - rewrite app_nil_r. reflexivity.
  - destruct (run_pipeline it r w) as [v w'|e]; [|reflexivity].
    rewrite (IH (if is_undefined v then acc else acc ++ [v])).
    rewrite (IH (if is_undefined v then [] else [] ++ [v])).
    destruct (drain it rs [] w') as [vs w''|e]; [|reflexivity].
    destruct (is_undefined v); simpl; [reflexivity|].
    rewrite <- app_assoc. reflexivity.
Qed.

Lemma collect_loop_acc (it : Iter W) (acc : list jsval) (w : W) :
  collect_loop it acc w =
  match collect_loop it [] w with
  | Throw e => Throw e
  | Normal (vs, it') w' => Normal (acc ++ vs, it') w'
  end.
Proof.
  rewrite !(collect_loop_drain (ahead it)) by lia.
  rewrite drain_acc.
  destruct (drain it _ [] w) as [vs w'|e]; reflexivity.
Qed.

(** X1: [collect()] sends the raw elements ahead of the position through
    the pipeline loop one after the other, each through all stages
    before the next is read, keeps the results that are not [undefined]
    in that order, raises where a stage call raises, and leaves the
    position at the end of the array. *)
Theorem collect_element_by_element (it : Iter W) (w : W) :
  collect it w =
  match drain it (skipn (Z.to_nat (idx it)) (val it)) [] w with
  | Throw e => Throw e
  | Normal vs w' =>
      Normal (vs, set_idx it (Z.max (idx it) (array_length (val it)))) w'
  end.
Proof. unfold collect. apply (collect_loop_drain (ahead it)). lia. Qed.

Lemma collect_exhausts (it : Iter W) (w : W) vs it1 w1 :
  collect it w = Normal (vs, it1) w1 -> has_next it1 = false.
Proof.
  unfold collect. rewrite (collect_loop_drain (ahead it)) by lia.
  destruct (drain it _ [] w) as [vs' w'|e]; [|discriminate].
  intros H. inversion H; subst. apply has_next_false. simpl. lia.
Qed.

(** X2: [collect()] uses the cursor up: after it nothing is ahead, a
    second [collect()] returns the empty array and [next()] returns
    [undefined], neither moving the cursor nor calling a user function. *)
Theorem collect_twice_is_empty (it : Iter W) (w : W) vs it1 w1 :
  collect it w = Normal (vs, it1) w1 ->
  has_next it1 = false /\
  collect it1 w1 = Normal ([], it1) w1 /\
  next it1 w1 = Normal (VUndefined, it1) w1.
Proof.
  intros H. pose proof (collect_exhausts it w vs it1 w1 H) as Hx.
  split; [exact Hx|]. split.
  - unfold collect. rewrite collect_loop_eq, Hx. reflexivity.
  - apply next_exhausted. exact Hx.
Qed.

Lemma collect_after_next_aux : forall (n : nat) (it : Iter W) (w : W) v it1 w1,
  (ahead it <= n)%nat ->
  next it w = Normal (v, it1) w1 ->
  collect it w =
  match collect it1 w1 with
  | Throw e => Throw e
  | Normal (vs, it2) w2 =>
      Normal ((if is_undefined v then [] else [v]) ++ vs, it2) w2
  end.
Proof.
  induction n as [|n IH]; intros it w v it1 w1 Hn H;
    destruct (has_next it) eqn:Hc.
  - apply has_next_true in Hc. unfold ahead in Hn. lia.
  - rewrite (next_exhausted it w Hc) in H. inversion H; subst. simpl.
    destruct (collect it1 w1) as [[vs it2] w2|e]; reflexivity.
  - rewrite (next_step it w Hc) in H. unfold collect at 1.
    rewrite (collect_loop_step it [] w Hc).
    destruct (run_pipeline it _ w) as [v0 w0|e]; [|discriminate].
    destruct (is_undefined v0) eqn:Hu.
    + apply IH in H; [exact H|].
      apply has_next_true in Hc. unfold ahead in *. simpl. lia.
    + inversion H; subst. rewrite Hu. rewrite collect_loop_acc. reflexivity.
  - rewrite (next_exhausted it w Hc) in H. inversion H; subst. simpl.
    destruct (collect it1 w1) as [[vs it2] w2|e]; reflexivity.
Qed.

(** X3: [collect()] is [next()] followed by [collect()]: when [next()]
    returns a value, [collect()] from the same state returns that value
    in front of what [collect()] returns after the [next()] call; when
    [next()] returns [undefined], [collect()] returns what it returns
    after that call, which is nothing. *)
Theorem collect_is_next_then_collect (it : Iter W) (w : W) v it1 w1 :
  next it w = Normal (v, it1) w1 ->
  collect it w =
  match collect it1 w1 with
  | Throw e => Throw e
  | Normal (vs, it2) w2 =>
      Normal ((if is_undefined v then [] else [v]) ++ vs, it2) w2
  end /\
  (v = VUndefined -> collect it w = Normal ([], it1) w1).
Proof.
  intros H. pose proof (collect_after_next_aux (ahead it) it w v it1 w1
                          (Nat.le_refl _) H) as Hc.
  split; [exact Hc|].
  intros ->. rewrite Hc. simpl.
  pose proof (next_loop_frame (ahead it) _ _ _ _ _ _ (Nat.le_refl _) H)
    as (_ & _ & _ & Hx).
  rewrite andb_true_r in Hx.
  unfold collect. rewrite collect_loop_eq, Hx. reflexivity.
Qed.

(** X4: the condition that [next()] and [prev()] hand to
    [console.assert] always holds: a result of [undefined] comes only
    with nothing left in the direction of the call, whatever the
    pipeline. *)
Theorem never_exhausted_abruptly (it : Iter W) (w : W) v it' w' :
  (next it w = Normal (v, it') w' ->
     (has_next it' = true -> v <> VUndefined) /\
     (v = VUndefined -> has_next it' = false)) /\
  (prev it w = Normal (v, it') w' ->
     (has_prev it' = true -> v <> VUndefined) /\
     (v = VUndefined -> has_prev it' = false)).
Proof.
  split; intros H.
  - pose proof (next_loop_frame (ahead it) _ _ _ _ _ _ (Nat.le_refl _) H)
      as (_ & _ & _ & Hx).
    split.
    + intros Hn. rewrite Hn in Hx. simpl in Hx. apply is_undefined_false. exact Hx.
    + intros ->. rewrite andb_true_r in Hx. exact Hx.
  - pose proof (prev_loop_frame (behind it) _ _ _ _ _ _ (Nat.le_refl _) H)
      as (_ & _ & _ & Hx).
    split.
    + intros Hn. rewrite Hn in Hx. simpl in Hx. apply is_undefined_false. exact Hx.
    + intros ->. rewrite andb_true_r in Hx. exact Hx.
Qed.

End ElementByElement.

Lemma collect_twice_is_empty_witness :
  has_next (mkIter 5 [VNum 1; VNum 5; VNum 3; VNum 9; VNum 7]
              [_filter] [pure_fn (W := unit) (greater_than 4)]) = false /\
  collect (mkIter 5 [VNum 1; VNum 5; VNum 3; VNum 9; VNum 7]
             [_filter] [pure_fn (greater_than 4)]) tt
    = Normal ([], mkIter 5 [VNum 1; VNum 5; VNum 3; VNum 9; VNum 7]
                    [_filter] [pure_fn (greater_than 4)]) tt /\
  next (mkIter 5 [VNum 1; VNum 5; VNum 3; VNum 9; VNum 7]
          [_filter] [pure_fn (greater_than 4)]) tt
    = Normal (VUndefined, mkIter 5 [VNum 1; VNum 5; VNum 3; VNum 9; VNum 7]
                            [_filter] [pure_fn (greater_than 4)]) tt.
Proof.
  apply (collect_twice_is_empty
           (filter (pure_fn (greater_than 4))
              (new_Iter (Some [VNum 1; VNum 5; VNum 3; VNum 9; VNum 7]))) tt
           [VNum 5; VNum 9; VNum 7]).
  reflexivity.
Defined.

Lemma collect_is_next_then_collect_witness :
  collect (filter (pure_fn (greater_than 4))
             (new_Iter (Some [VNum 1; VNum 5; VNum 3; VNum 9; VNum 7]))) tt =
  match collect (mkIter 2 [VNum 1; VNum 5; VNum 3; VNum 9; VNum 7]
                   [_filter] [pure_fn (greater_than 4)]) tt with
  | Throw e => Throw e
  | Normal (vs, it2) w2 => Normal ([VNum 5] ++ vs, it2) w2
  end /\
  (VNum 5 = VUndefined ->
   collect (filter (pure_fn (greater_than 4))
              (new_Iter (Some [VNum 1; VNum 5; VNum 3; VNum 9; VNum 7]))) tt
   = Normal ([], mkIter 2 [VNum 1; VNum 5; VNum 3; VNum 9; VNum 7]
                   [_filter] [pure_fn (greater_than 4)]) tt).
Proof.
  apply (collect_is_next_then_collect
           (filter (pure_fn (greater_than 4))
              (new_Iter (Some [VNum 1; VNum 5; VNum 3; VNum 9; VNum 7]))) tt
           (VNum 5)).
  reflexivity.
Defined.

Lemma never_exhausted_abruptly_witness :
  ((has_next (mkIter 2 [VNum 1; VNum 5; VNum 3] [_filter]
                [pure_fn (W := unit) (greater_than 4)]) = true ->
    VNum 5 <> VUndefined) /\
   (VNum 5 = VUndefined ->
    has_next (mkIter 2 [VNum 1; VNum 5; VNum 3] [_filter]
                [pure_fn (W := unit) (greater_than 4)]) = false)) /\
  ((has_prev (mkIter 0 [VNum 1; VNum 5; VNum 3] [_filter]
                [pure_fn (W := unit) (greater_than 4)]) = true ->
    VUndefined <> VUndefined) /\
   (VUndefined = VUndefined ->
    has_prev (mkIter 0 [VNum 1; VNum 5; VNum 3] [_filter]
                [pure_fn (W := unit) (greater_than 4)]) = false)).
Proof.
  split.
  - apply (proj1 (never_exhausted_abruptly
             (mkIter 0 [VNum 1; VNum 5; VNum 3] [_filter] [pure_fn (greater_than 4)])
             tt (VNum 5)
             (mkIter 2 [VNum 1; VNum 5; VNum 3] [_filter] [pure_fn (greater_than 4)])
             tt)).
    reflexivity.
  - apply (proj2 (never_exhausted_abruptly
             (mkIter 1 [VNum 1; VNum 5; VNum 3] [_filter] [pure_fn (greater_than 4)])
             tt VUndefined
             (mkIter 0 [VNum 1; VNum 5; VNum 3] [_filter] [pure_fn (greater_than 4)])
             tt)).
    reflexivity.
Defined.

(** ** filter, tap and map on a fresh cursor *)

Section StageLaws.

Context {W : Type}.

Lemma select_pure (p : jsval -> jsval) : forall (l : list jsval) (w : W),
  select (pure_fn p) l w = (List.filter (fun v => truthy (p v)) l, w).
Proof.
  induction l as [|x l IH]; intros w; simpl; [reflexivity|].
  rewrite IH. reflexivity.
Qed.

Lemma collect_raws_filter (fn : callback_fn W) : forall (raws acc : list jsval) (w : W),
  collect_raws [(_filter, fn)] raws acc w =
  (acc ++ fst (select fn (defined_of raws) w), snd (select fn (defined_of raws) w)).
Proof.
  induction raws as [|r raws IH]; intros acc w; simpl.
  - rewrite app_nil_r. reflexivity.
  - destruct (is_undefined r) eqn:Hr; simpl.
    + rewrite Hr. apply IH.
    + unfold _filter at 1. destruct (fn r w) as [res w1].
      rewrite IH. destruct (select fn (defined_of raws) w1) as [xs w2].
      destruct (truthy res); simpl.
      * rewrite Hr, <- app_assoc. reflexivity.
      * reflexivity.
Qed.

(** X5: on a fresh cursor [filter(fn)] then [collect()] asks [fn] once
    about each element that is not [undefined], first to last, and
    returns those it accepts, in order; for a predicate without side
    effects that is the sublist of the accepted elements. *)
Theorem filter_collect_selects (vals : list jsval) (fn : callback_fn W) (w : W) :
  (exists it',
     collect (filter fn (new_Iter (Some vals))) w =
     Normal (fst (select fn (defined_of vals) w), it')
            (snd (select fn (defined_of vals) w))) /\
  (forall p, fn = pure_fn p ->
     exists it',
       collect (filter fn (new_Iter (Some vals))) w =
       Normal (List.filter (fun v => truthy (p v)) (defined_of vals), it') w).
Proof.
  assert (H : exists it',
     collect (filter fn (new_Iter (Some vals))) w =
     Normal (fst (select fn (defined_of vals) w), it')
            (snd (select fn (defined_of vals) w))).
  { destruct (collect_raws_spec (filter fn (new_Iter (Some vals))) w eq_refl)
      as (it' & Hc & _).
    exists it'. rewrite Hc.
    change (stages (filter fn (new_Iter (Some vals)))) with [(@_filter W, fn)].
    change (skipn _ _) with vals.
    rewrite collect_raws_filter. reflexivity. }
  split; [exact H|].
  intros p ->. destruct H as (it' & H). exists it'.
  rewrite H, select_pure. reflexivity.
Qed.

Lemma collect_raws_tap (fn : callback_fn W) : forall (raws acc : list jsval) (w : W),
  collect_raws [(_tap, fn)] raws acc w =
  (acc ++ defined_of raws, snd (elementwise fn (defined_of raws) w)).
Proof.
  induction raws as [|r raws IH]; intros acc w; simpl.
  - rewrite app_nil_r. reflexivity.
  - destruct (is_undefined r) eqn:Hr; simpl.
    + rewrite Hr. apply IH.
    + unfold _tap at 1. destruct (fn r w) as [res w1].
      rewrite Hr, IH. destruct (elementwise fn (defined_of raws) w1) as [ys w2].
      simpl. rewrite <- app_assoc. reflexivity.
Qed.

(** X6: on a fresh cursor [tap(fn)] then [collect()] returns the
    elements that are not [undefined] as they are, and has called [fn]
    once on each of them, first to last; what [fn] returns is dropped. *)
Theorem tap_collect_calls_each (vals : list jsval) (fn : callback_fn W) (w : W) :
  exists it',
    collect (tap fn (new_Iter (Some vals))) w =
    Normal (defined_of vals, it') (snd (elementwise fn (defined_of vals) w)).
Proof.
  destruct (collect_raws_spec (tap fn (new_Iter (Some vals))) w eq_refl)
    as (it' & Hc & _).
  exists it'. rewrite Hc.
  change (stages (tap fn (new_Iter (Some vals)))) with [(@_tap W, fn)].
  change (skipn _ _) with vals.
  rewrite collect_raws_tap. reflexivity.
Qed.

Lemma collect_raws_map_filter (f p : jsval -> jsval) :
  forall (raws acc : list jsval) (w : W),
  collect_raws [(_map, pure_fn f); (_filter, pure_fn p)] raws acc w =
  (acc ++ List.filter (fun v => truthy (p v)) (defined_of (List.map f (defined_of raws))), w).
Proof.
  induction raws as [|r raws IH]; intros acc w; simpl.
  - rewrite app_nil_r. reflexivity.
  - destruct (is_undefined r) eqn:Hr; simpl.
    + rewrite Hr. apply IH.
    + unfold _map at 1, pure_fn at 1.
      destruct (is_undefined (f r)) eqn:Hf; simpl.
      * rewrite Hf. apply IH.
      * unfold _filter at 1, pure_fn at 1.
        destruct (truthy (p (f r))); simpl.
        -- rewrite Hf, IH, <- app_assoc. reflexivity.
        -- apply IH.
Qed.

Lemma collect_raws_filter_map (f p : jsval -> jsval) :
  forall (raws acc : list jsval) (w : W),
  collect_raws [(_filter, pure_fn p); (_map, pure_fn f)] raws acc w =
  (acc ++ defined_of (List.map f (List.filter (fun v => truthy (p v)) (defined_of raws))), w).
Proof.
  induction raws as [|r raws IH]; intros acc w; simpl.
  - rewrite app_nil_r. reflexivity.
  - destruct (is_undefined r) eqn:Hr; simpl.
    + rewrite Hr. apply IH.
    + unfold _filter at 1, pure_fn at 1.
      destruct (truthy (p r)); simpl.
      * rewrite Hr. unfold _map at 1, pure_fn at 1.
        destruct (is_undefined (f r)) eqn:Hf; simpl.
        -- apply IH.
        -- rewrite IH, <- app_assoc. reflexivity.
      * apply IH.
Qed.

(** X7: for functions without side effects, [map(f).filter(p)] then
    [collect()] on a fresh cursor is: drop the [undefined] elements,
    apply [f], drop the [undefined] results, keep what [p] accepts; and
    [filter(p).map(f)] is: drop the [undefined] elements, keep what [p]
    accepts, apply [f], drop the [undefined] results. *)
Theorem map_filter_collect (vals : list jsval) (f p : jsval -> jsval) (w : W) :
  (exists it',
     collect (filter (pure_fn p) (map (pure_fn f) (new_Iter (Some vals)))) w =
     Normal (List.filter (fun v => truthy (p v))
               (defined_of (List.map f (defined_of vals))), it') w) /\
  (exists it',
     collect (map (pure_fn f) (filter (pure_fn p) (new_Iter (Some vals)))) w =
     Normal (defined_of (List.map f
               (List.filter (fun v => truthy (p v)) (defined_of vals))), it') w).
Proof.
  split.
  - destruct (collect_raws_spec
                (filter (pure_fn p) (map (pure_fn f) (new_Iter (Some vals)))) w eq_refl)
      as (it' & Hc & _).
    exists it'. rewrite Hc.
    change (stages _) with [(@_map W, @pure_fn W f); (@_filter W, @pure_fn W p)].
    change (skipn _ _) with vals.
    rewrite collect_raws_map_filter. reflexivity.
  - destruct (collect_raws_spec
                (map (pure_fn f) (filter (pure_fn p) (new_Iter (Some vals)))) w eq_refl)
      as (it' & Hc & _).
    exists it'. rewrite Hc.
    change (stages _) with [(@_filter W, @pure_fn W p); (@_map W, @pure_fn W f)].
    change (skipn _ _) with vals.
    rewrite collect_raws_filter_map. reflexivity.
Qed.

End StageLaws.

(** ** A tap on its own part of the world *)

Section TapTransparent.

Context {A L : Type}.

Lemma register_stages {W : Type} : forall (rs : list (registration (W := W))) (it : Iter W),
  pipeline_ok it ->
  pipeline_ok (register rs it) /\
  stages (register rs it) = stages it ++ List.map stage_of rs.
Proof.
  induction rs as [|r rs IH]; intros it Hok; simpl.
  - rewrite app_nil_r. auto.
  - assert (Hok1 : pipeline_ok (register_one it r))
      by (destruct r; apply push_stage_ok; exact Hok).
    destruct (IH _ Hok1) as (H1 & H2). split; [exact H1|].
    rewrite H2. destruct r; simpl; unfold map, filter, tap;
      rewrite stages_push by exact Hok; rewrite <- app_assoc; reflexivity.
Qed.

Lemma run_pairs_lifted : forall (rs : list (registration (W := A))) v (a : A) (l : L),
  run_pairs (List.map stage_of (List.map lift_reg rs)) v (a, l) =
  let (v', a') := run_pairs (List.map stage_of rs) v a in (v', (a', l)).
Proof.
  induction rs as [|r rs IH]; intros v a l; simpl; [reflexivity|].
  destruct r as [fn|fn|fn]; simpl;
    (destruct (is_undefined v); [reflexivity|]).
  - unfold _map, on_left. simpl.
    destruct (fn v a) as [r a']. apply IH.
  - unfold _filter, on_left. simpl.
    destruct (fn v a) as [r a']. apply IH.
  - unfold _tap, on_left. simpl.
    destruct (fn v a) as [r a']. apply IH.
Qed.

Lemma run_pairs_with_tap (rs1 rs2 : list (registration (W := A)))
    (t : jsval -> L -> jsval * L) v (a : A) (l : L) :
  fst (run_pairs (List.map stage_of (List.map lift_reg rs1) ++
                  (_tap, on_right t) :: List.map stage_of (List.map lift_reg rs2))
         v (a, l)) =
  fst (run_pairs (List.map stage_of rs1 ++ List.map stage_of rs2) v a) /\
  fst (snd (run_pairs (List.map stage_of (List.map lift_reg rs1) ++
                  (_tap, on_right t) :: List.map stage_of (List.map lift_reg rs2))
         v (a, l))) =
  snd (run_pairs (List.map stage_of rs1 ++ List.map stage_of rs2) v a).
Proof.
  rewrite !run_pairs_app, run_pairs_lifted.
  destruct (run_pairs (List.map stage_of rs1) v a) as [v1 a1].
  cbn [run_pairs].
  destruct (is_undefined v1) eqn:Hu.
  - rewrite (is_undefined_true _ Hu), run_pairs_undefined. auto.
  - unfold _tap, on_right. simpl.
    destruct (t v1 l) as [r l']. rewrite run_pairs_lifted.
    destruct (run_pairs (List.map stage_of rs2) v1 a1) as [v2 a2]. auto.
Qed.

Lemma collect_raws_with_tap (rs1 rs2 : list (registration (W := A)))
    (t : jsval -> L -> jsval * L) :
  forall raws acc (a : A) (l : L),
  fst (collect_raws (List.map stage_of (List.map lift_reg rs1) ++
                  (_tap, on_right t) :: List.map stage_of (List.map lift_reg rs2))
         raws acc (a, l)) =
  fst (collect_raws (List.map stage_of rs1 ++ List.map stage_of rs2) raws acc a) /\
  fst (snd (collect_raws (List.map stage_of (List.map lift_reg rs1) ++
                  (_tap, on_right t) :: List.map stage_of (List.map lift_reg rs2))
         raws acc (a, l))) =
  snd (collect_raws (List.map stage_of rs1 ++ List.map stage_of rs2) raws acc a).
Proof.
  induction raws as [|r raws IH]; intros acc a l; cbn [collect_raws]; [auto|].
  pose proof (run_pairs_with_tap rs1 rs2 t r a l) as (H1 & H2).
  destruct (run_pairs (_ ++ (_tap, on_right t) :: _) r (a, l)) as [v [a' l']].
  destruct (run_pairs (List.map stage_of rs1 ++ List.map stage_of rs2) r a) as [v0 a0].
  simpl in H1, H2. subst v0 a0. apply IH.
Qed.

Lemma chain_stages {W : Type} (v : option (list jsval))
    (rs : list (registration (W := W))) :
  pipeline_ok (register rs (new_Iter v)) /\
  stages (register rs (new_Iter v)) = List.map stage_of rs /\
  idx (register rs (new_Iter v)) = 0 /\
  val (register rs (new_Iter v)) = val (new_Iter (W := W) v).
Proof.
  destruct (register_stages rs (new_Iter v) eq_refl) as (H1 & H2).
  destruct (register_frame rs (new_Iter v) eq_refl) as (_ & H3 & H4).
  repeat split; assumption.
Qed.

Lemma chain_with_tap_stages {W : Type} (v : option (list jsval))
    (rs1 rs2 : list (registration (W := W))) (fn : callback_fn W) :
  pipeline_ok (register rs2 (tap fn (register rs1 (new_Iter v)))) /\
  stages (register rs2 (tap fn (register rs1 (new_Iter v)))) =
    List.map stage_of rs1 ++ (_tap, fn) :: List.map stage_of rs2 /\
  idx (register rs2 (tap fn (register rs1 (new_Iter v)))) = 0 /\
  val (register rs2 (tap fn (register rs1 (new_Iter v)))) = val (new_Iter (W := W) v).
Proof.
  destruct (chain_stages v rs1) as (Hok1 & Hs1 & Hi1 & Hv1).
  assert (Hok2 : pipeline_ok (tap fn (register rs1 (new_Iter v))))
    by (apply push_stage_ok; exact Hok1).
  destruct (register_stages rs2 _ Hok2) as (Hok3 & Hs3).
  destruct (register_frame rs2 _ Hok2) as (_ & Hi3 & Hv3).
  split; [exact Hok3|]. split; [|split].
  - rewrite Hs3. unfold tap. rewrite stages_push by exact Hok1.
    rewrite Hs1, <- app_assoc. reflexivity.
  - rewrite Hi3. exact Hi1.
  - rewrite Hv3. exact Hv1.
Qed.

(** X8: a [tap] whose function acts on a part of the world of its own
    is transparent wherever it stands in a chain of [map], [filter] and
    [tap] calls: [collect()] returns the same values and leaves the
    rest of the world in the same state as the chain without it. *)
Theorem tap_is_transparent (v : option (list jsval))
    (rs1 rs2 : list (registration (W := A)))
    (t : jsval -> L -> jsval * L) (a : A) (l : L) :
  exists vs it1 it2 a' l',
    collect (register (List.map lift_reg rs2)
               (tap (on_right t)
                  (register (List.map lift_reg rs1) (new_Iter v)))) (a, l)
      = Normal (vs, it1) (a', l') /\
    collect (register (rs1 ++ rs2) (new_Iter v)) a
      = Normal (vs, it2) a'.
Proof.
  destruct (chain_with_tap_stages v (List.map lift_reg rs1) (List.map lift_reg rs2)
              (on_right t)) as (HokL & HsL & HiL & HvL).
  destruct (chain_stages v (rs1 ++ rs2)) as (HokR & HsR & HiR & HvR).
  destruct (collect_raws_spec _ (a, l) HokL) as (it1 & Hc1 & _).
  destruct (collect_raws_spec _ a HokR) as (it2 & Hc2 & _).
  rewrite HsL, HiL, HvL in Hc1. rewrite HsR, HiR, HvR, List.map_app in Hc2.
  change (val (new_Iter (W := A * L) v)) with (val (new_Iter (W := A) v)) in Hc1.
  set (raws := skipn (Z.to_nat 0) (val (new_Iter (W := A) v))) in *.
  pose proof (collect_raws_with_tap rs1 rs2 t raws [] a l) as (E1 & E2).
  destruct (collect_raws (_ ++ (_tap, on_right t) :: _) raws [] (a, l))
    as [vs [a' l']].
  cbn [fst snd] in E1, E2, Hc1.
  exists vs, it1, it2, a', l'. split; [exact Hc1|].
  rewrite Hc2, <- E1, <- E2. reflexivity.
Qed.

End TapTransparent.

(** ** The position stays inside the array *)

Section Position.

Context {W : Type}.

Lemma next_loop_upper : forall (n : nat) (it : Iter W) (nxt : jsval) (w : W) v it' w',
  (ahead it <= n)%nat ->
  next_loop it nxt w = Normal (v, it') w' ->
  idx it <= array_length (val it) -> idx it' <= array_length (val it).
Proof.
  induction n as [|n IH]; intros it nxt w v it' w' Hn H Hi;
    rewrite next_loop_eq in H;
    destruct (has_next it && is_undefined nxt) eqn:Hc;
    try (inversion H; subst; exact Hi).
  - apply andb_prop in Hc. destruct Hc as [Hc _].
    apply has_next_true in Hc. unfold ahead in Hn. lia.
  - apply andb_prop in Hc. destruct Hc as [Hc _]. apply has_next_true in Hc.
    destruct (run_pipeline _ _ w) as [v1 w1|e]; [|discriminate].
    apply IH in H; simpl in *; try lia.
    unfold ahead in *. simpl. lia.
Qed.

Lemma prev_loop_lower : forall (n : nat) (it : Iter W) (prv : jsval) (w : W) v it' w',
  (behind it <= n)%nat ->
  prev_loop it prv w = Normal (v, it') w' ->
  0 <= idx it -> 0 <= idx it'.
Proof.
  induction n as [|n IH]; intros it prv w v it' w' Hn H Hi;
    rewrite prev_loop_eq in H;
    destruct (has_prev it && is_undefined prv) eqn:Hc;
    try (inversion H; subst; exact Hi).
  - apply andb_prop in Hc. destruct Hc as [Hc _].
    apply has_prev_true in Hc. unfold behind in Hn. lia.
  - apply andb_prop in Hc. destruct Hc as [Hc _]. apply has_prev_true in Hc.
    destruct (run_pipeline _ _ w) as [v1 w1|e]; [|discriminate].
    apply IH in H; simpl in *; try lia.
    unfold behind in *. simpl. lia.
Qed.

Lemma next_in_range (it : Iter W) (w : W) v it' w' :
  next it w = Normal (v, it') w' -> in_range it -> in_range it' /\ val it' = val it.
Proof.
  intros H [H0 H1].
  pose proof (next_loop_frame (ahead it) _ _ _ _ _ _ (Nat.le_refl _) H)
    as ((Hv & _) & Hle & _).
  pose proof (next_loop_upper (ahead it) _ _ _ _ _ _ (Nat.le_refl _) H H1) as Hu.
  unfold in_range. rewrite Hv. repeat split; lia.
Qed.

Lemma prev_in_range (it : Iter W) (w : W) v it' w' :
  prev it w = Normal (v, it') w' -> in_range it -> in_range it' /\ val it' = val it.
Proof.
  intros H [H0 H1].
  pose proof (prev_loop_frame (behind it) _ _ _ _ _ _ (Nat.le_refl _) H)
    as ((Hv & _) & Hle & _).
  pose proof (prev_loop_lower (behind it) _ _ _ _ _ _ (Nat.le_refl _) H H0) as Hl.
  unfold in_range. rewrite Hv. repeat split; lia.
Qed.

Lemma collect_in_range (it : Iter W) (w : W) vs it' w' :
  collect it w = Normal (vs, it') w' -> in_range it -> in_range it' /\ val it' = val it.
Proof.
  intros H [H0 H1]. unfold collect in H.
  rewrite (collect_loop_drain (ahead it)) in H by lia.
  destruct (drain it _ [] w) as [vs' w1|e]; [|discriminate].
  inversion H; subst. unfold in_range. simpl. repeat split; lia.
Qed.

Lemma exec_in_range (o : operation) (it : Iter W) (w : W) it' w' :
  exec o it w = Normal it' w' -> in_range it -> in_range it' /\ val it' = val it.
Proof.
  intros H Hr. destruct o; cbn [exec] in H;
    try (inversion H; subst; simpl; split; [exact Hr|reflexivity]).
  - inversion H; subst. unfold in_range, array_length. simpl. split; [lia|reflexivity].
  - apply drop_result_inv in H. destruct H as [b H]. unfold some in H.
    destruct (next (push_stage _filter fn it) w) as [[v it1] w1|e] eqn:Hn; [|discriminate].
    inversion H; subst. exact (next_in_range _ _ _ _ _ Hn Hr).
  - apply drop_result_inv in H. destruct H as [v H].
    exact (next_in_range _ _ _ _ _ H Hr).
  - apply drop_result_inv in H. destruct H as [v H].
    exact (next_in_range _ _ _ _ _ H Hr).
  - apply drop_result_inv in H. destruct H as [v H].
    exact (prev_in_range _ _ _ _ _ H Hr).
  - apply drop_result_inv in H. destruct H as [v H].
    exact (collect_in_range _ _ _ _ _ H Hr).
Qed.

Lemma exec_all_in_range : forall (ops : list operation) (it : Iter W) (w : W) it' w',
  exec_all ops it w = Normal it' w' -> in_range it ->
  in_range it' /\ val it' = val it.
Proof.
  induction ops as [|o ops IH]; intros it w it' w' H Hr; simpl in H.
  - inversion H; subst. auto.
  - destruct (exec o it w) as [it1 w1|e] eqn:H1; [|discriminate].
    destruct (exec_in_range o it w it1 w1 H1 Hr) as (Hr1 & Hv1).
    destruct (IH it1 w1 it' w' H Hr1) as (Hr' & Hv').
    split; [exact Hr'|congruence].
Qed.

Lemma exec_all_app : forall (ops1 ops2 : list operation) (it : Iter W) (w : W),
  exec_all (ops1 ++ ops2) it w =
  match exec_all ops1 it w with
  | Throw e => Throw e
  | Normal it' w' => exec_all ops2 it' w'
  end.
Proof.
  induction ops1 as [|o ops1 IH]; intros ops2 it w; simpl; [reflexivity|].
  destruct (exec o it w) as [it1 w1|e]; [apply IH|reflexivity].
Qed.

(** X9: after construction and any sequence of method calls the
    position is between 0 and the length of the array, both included,
    so [next()] and [prev()] only ever read inside the array; and the
    array is the one the constructor was given. *)
Theorem position_stays_in_range
    (v : option (list jsval)) (ops : list operation) (w : W) :
  exists it' w',
    exec_all ops (new_Iter v) w = Normal it' w' /\
    0 <= idx it' <= array_length (val it') /\
    val it' = match v with Some a => a | None => [] end.
Proof.
  destruct (exec_all_steps ops (new_Iter v) w eq_refl) as (it' & w' & He & _).
  exists it', w'. split; [exact He|].
  apply (exec_all_in_range ops (new_Iter v) w it' w' He).
  unfold in_range, array_length. simpl. lia.
Qed.

(** X10: whatever was called before, [reset()] gives back the cursor as
    the constructor made it: position 0, both pipeline arrays empty, the
    same array. *)
Theorem reset_restores_fresh
    (v : option (list jsval)) (ops : list operation) (w : W) :
  exists w',
    exec_all (ops ++ [op_reset]) (new_Iter v) w = Normal (new_Iter v) w'.
Proof.
  destruct (exec_all_steps ops (new_Iter v) w eq_refl) as (it' & w' & He & _).
  exists w'. rewrite exec_all_app, He. simpl. unfold reset.
  destruct (exec_all_in_range ops (new_Iter v) w it' w' He) as (_ & Hv).
  - unfold in_range, array_length. simpl. lia.
  - rewrite Hv. destruct v; reflexivity.
Qed.

Lemma prev_exhausted (it : Iter W) (w : W) :
  has_prev it = false -> prev it w = Normal (VUndefined, it) w.
Proof. intros H. unfold prev. rewrite prev_loop_eq, H. reflexivity. Qed.

Lemma prev_times_exhausted : forall (k : nat) (it : Iter W) (w : W),
  has_prev it = false -> prev_times k it w = Normal it w.
Proof.
  induction k as [|k IH]; intros it w H; simpl; [reflexivity|].
  rewrite prev_exhausted by exact H. apply IH. exact H.
Qed.

Lemma prev_times_behind : forall (k : nat) (it : Iter W) (w : W),
  pipeline_ok it ->
  exists it' w',
    prev_times k it w = Normal it' w' /\
    same_pipeline it it' /\ (behind it' <= behind it - k)%nat /\
    (0 <= idx it -> 0 <= idx it').
Proof.
  induction k as [|k IH]; intros it w Hok; simpl.
  - exists it, w. unfold same_pipeline. repeat split; auto. lia.
  - destruct (prev_keeps it w Hok) as (v & it1 & w1 & Hp & Hsame). rewrite Hp.
    pose proof (prev_loop_frame (behind it) _ _ _ _ _ _ (Nat.le_refl _) Hp)
      as (_ & Hle & Hlt & _).
    pose proof (prev_loop_lower (behind it) _ _ _ _ _ _ (Nat.le_refl _) Hp) as Hlow.
    destruct (IH it1 w1 (same_pipeline_ok _ _ Hsame Hok))
      as (it' & w' & Hk & Hsame' & Hb & Hlow').
    exists it', w'. split; [exact Hk|].
    split; [exact (same_pipeline_trans _ _ _ Hsame Hsame')|].
    rewrite andb_true_r in Hlt. split; [|auto].
    destruct (has_prev it) eqn:Hn.
    + specialize (Hlt eq_refl). apply has_prev_true in Hn.
      unfold behind in *. lia.
    + apply has_prev_false in Hn. unfold behind in *. lia.
Qed.

(** X11: as many [prev()] calls as the position counts bring the cursor
    to the start: all of them return, after them [has_prev()] is [false]
    and the position is 0, and each [prev()] call from then on returns
    [undefined], the cursor staying as it is. *)
Theorem rewound_prev_returns_undefined (it : Iter W) (w : W) :
  pipeline_ok it -> 0 <= idx it ->
  exists it' w',
    prev_times (Z.to_nat (idx it)) it w = Normal it' w' /\
    has_prev it' = false /\ idx it' = 0 /\
    forall k : nat,
      prev_times k it' w' = Normal it' w' /\
      prev it' w' = Normal (VUndefined, it') w'.
Proof.
  intros Hok Hi.
  destruct (prev_times_behind (Z.to_nat (idx it)) it w Hok)
    as (it' & w' & Hk & _ & Hb & Hlow).
  specialize (Hlow Hi).
  assert (Hz : idx it' = 0) by (unfold behind in Hb; lia).
  assert (Hx : has_prev it' = false) by (apply has_prev_false; lia).
  exists it', w'. repeat split; auto.
  - apply prev_times_exhausted. exact Hx.
  - apply prev_exhausted. exact Hx.
Qed.

End Position.

Lemma rewound_prev_returns_undefined_witness :
  exists it' w',
    prev_times (Z.to_nat 3)
      (mkIter 3 [VNum 1; VNum 5; VNum 3; VNum 9; VNum 7]
         [_filter] [pure_fn (greater_than 4)]) tt = Normal it' w' /\
    has_prev it' = false /\ idx it' = 0 /\
    forall k : nat,
      prev_times k it' w' = Normal it' w' /\
      prev it' w' = Normal (VUndefined, it') w'.
Proof.
  apply (rewound_prev_returns_undefined
           (mkIter 3 [VNum 1; VNum 5; VNum 3; VNum 9; VNum 7]
              [_filter] [pure_fn (greater_than 4)]) tt).
  - reflexivity.
  - simpl. lia.
Defined.

(** ** find and some on a fresh cursor *)

Section FirstMatch.

Context {W : Type}.

(** X12: on a fresh cursor, for a predicate [p] without side effects,
    [find(p)] returns the first element that is not [undefined] and that
    [p] accepts, or [undefined] when there is none, which leaves the
    position at the end; [some(p)] returns that element converted to a
    boolean. *)
Theorem find_returns_first_match (vals : list jsval) (p : jsval -> jsval) (w : W) :
  let matches := List.filter (fun v => truthy (p v)) (defined_of vals) in
  exists it',
    find (pure_fn p) (new_Iter (Some vals)) w
      = Normal (hd VUndefined matches, it') w /\
    some (pure_fn p) (new_Iter (Some vals)) w
      = Normal (truthy (hd VUndefined matches), it') w /\
    (matches = [] -> idx it' = array_length vals).
Proof.
  intros matches.
  set (it0 := filter (pure_fn p) (new_Iter (W := W) (Some vals))).
  assert (Hok : pipeline_ok it0) by reflexivity.
  destruct (next_collect_raws (ahead it0) it0 [] w (Nat.le_refl _) Hok)
    as (v & it' & w' & Hnx & Hcr).
  pose proof (next_loop_frame (ahead it0) _ _ _ _ _ _ (Nat.le_refl _) Hnx)
    as (_ & Hle & _ & Hx).
  assert (Hup : idx it' <= array_length vals).
  { apply (next_loop_upper (ahead it0) _ _ _ _ _ _ (Nat.le_refl _) Hnx).
    unfold array_length. simpl. lia. }
  change (stages it0) with [(@_filter W, @pure_fn W p)] in Hcr.
  change (skipn (Z.to_nat (idx it0)) (val it0)) with vals in Hcr.
  change (val it0) with vals in Hcr.
  rewrite !collect_raws_filter, !select_pure in Hcr.
  cbn [fst snd app] in Hcr. fold matches in Hcr.
  inversion Hcr as [[Hm Hw]]. subst w'.
  assert (Hv : hd VUndefined matches = v /\ (matches = [] -> idx it' = array_length vals)).
  { destruct (is_undefined v) eqn:Hu.
    - rewrite andb_true_r in Hx. apply has_next_false in Hx.
      change (val it') with (val it') in Hx.
      pose proof (next_loop_frame (ahead it0) _ _ _ _ _ _ (Nat.le_refl _) Hnx)
        as ((Hval & _) & _).
      change (val it0) with vals in Hval. rewrite Hval in Hx.
      rewrite skipn_exhausted in Hm by exact Hx. simpl in Hm.
      rewrite Hm. simpl. split; [symmetry; apply is_undefined_true; exact Hu|].
      intros _. lia.
    - rewrite Hm. simpl. split; [reflexivity|]. intros He. discriminate He. }
  destruct Hv as (Hv & Hend).
  exists it'. rewrite Hv. split; [exact Hnx|]. split; [|exact Hend].
  apply (some_next (pure_fn p) (new_Iter (Some vals)) w v it' w). exact Hnx.
Qed.

End FirstMatch.

(** ** next and prev with a pipeline that keeps no state *)

Section Symmetry.

Context {W : Type}.

Lemma stateless_same (a b : Iter W) (g : jsval -> jsval) :
  same_pipeline a b -> stateless a g -> stateless b g.
Proof.
  intros (_ & Hh & Hc) H raw w. unfold run_pipeline. rewrite Hh, Hc. apply H.
Qed.

Lemma stateless_undefined (it : Iter W) (g : jsval -> jsval) (w : W) :
  stateless it g -> g VUndefined = VUndefined.
Proof.
  intros H. specialize (H VUndefined w). rewrite run_pipeline_undefined in H.
  inversion H. congruence.
Qed.

Lemma next_stateless (g : jsval -> jsval) :
  forall (n : nat) (it : Iter W) (w : W) v it' w',
  (ahead it <= n)%nat -> stateless it g ->
  next it w = Normal (v, it') w' ->
  w' = w /\ (v <> VUndefined -> v = g (array_get (val it) (idx it' - 1))).
Proof.
  induction n as [|n IH]; intros it w v it' w' Hn Hg H;
    destruct (has_next it) eqn:Hc.
  - apply has_next_true in Hc. unfold ahead in Hn. lia.
  - rewrite (next_exhausted it w Hc) in H. inversion H; subst.
    split; [reflexivity|congruence].
  - rewrite (next_step it w Hc), Hg in H.
    destruct (is_undefined (g (array_get (val it) (idx it)))) eqn:Hu.
    + apply IH in H; [exact H| |exact Hg].
      apply has_next_true in Hc. unfold ahead in *. simpl. lia.
    + inversion H; subst. split; [reflexivity|]. intros _. simpl.
      f_equal. f_equal. lia.
  - rewrite (next_exhausted it w Hc) in H. inversion H; subst.
    split; [reflexivity|congruence].
Qed.

Lemma prev_stateless (g : jsval -> jsval) :
  forall (n : nat) (it : Iter W) (w : W) v it' w',
  (behind it <= n)%nat -> stateless it g ->
  prev it w = Normal (v, it') w' ->
  w' = w /\ (v <> VUndefined -> v = g (array_get (val it) (idx it'))).
Proof.
  induction n as [|n IH]; intros it w v it' w' Hn Hg H;
    destruct (has_prev it) eqn:Hc.
  - apply has_prev_true in Hc. unfold behind in Hn. lia.
  - rewrite (prev_exhausted it w Hc) in H. inversion H; subst.
    split; [reflexivity|congruence].
  - rewrite (prev_step it w Hc), Hg in H.
    destruct (is_undefined (g (array_get (val it) (idx it - 1)))) eqn:Hu.
    + apply IH in H; [exact H| |exact Hg].
      apply has_prev_true in Hc. unfold behind in *. simpl. lia.
    + inversion H; subst. split; [reflexivity|]. intros _. reflexivity.
  - rewrite (prev_exhausted it w Hc) in H. inversion H; subst.
    split; [reflexivity|congruence].
Qed.

Lemma array_get_defined (l : list jsval) (i : Z) :
  array_get l i <> VUndefined -> 0 <= i < array_length l.
Proof.
  intros H. destruct (Z.neg_nonneg_cases i) as [Hneg|Hpos].
  - rewrite array_get_negative in H by exact Hneg. congruence.
  - split; [exact Hpos|]. rewrite array_get_nth in H by exact Hpos.
    destruct (Z.lt_ge_cases i (array_length l)) as [Hlt|Hge]; [exact Hlt|].
    rewrite nth_overflow in H; [congruence|]. unfold array_length in Hge. lia.
Qed.

(** X13: when the registered stages keep no state (the pipeline is a
    function of the raw element and leaves the world alone), [next()]
    and [prev()] undo each other: the value [next()] returns is what
    [prev()] returns right after, one position back, and the value
    [prev()] returns is what [next()] returns right after, one position
    on. *)
Theorem next_prev_undo_each_other (it : Iter W) (g : jsval -> jsval)
    (w : W) v it' w' :
  stateless it g ->
  v <> VUndefined ->
  (next it w = Normal (v, it') w' ->
     prev it' w' = Normal (v, set_idx it' (idx it' - 1)) w') /\
  (prev it w = Normal (v, it') w' ->
     next it' w' = Normal (v, set_idx it' (idx it' + 1)) w').
Proof.
  intros Hg Hv. pose proof (stateless_undefined it g w Hg) as Hgu. split; intros H.
  - pose proof (next_same it w v it' w' H) as Hsame.
    destruct (next_stateless g (ahead it) it w v it' w' (Nat.le_refl _) Hg H)
      as (_ & Hraw).
    specialize (Hraw Hv).
    assert (Hdef : array_get (val it) (idx it' - 1) <> VUndefined)
      by (intros He; rewrite He, Hgu in Hraw; congruence).
    apply array_get_defined in Hdef.
    assert (Hp : has_prev it' = true) by (apply has_prev_true; lia).
    rewrite (prev_step it' w' Hp).
    rewrite (stateless_same _ _ g Hsame Hg).
    destruct Hsame as (Hval & _). rewrite Hval, <- Hraw.
    apply is_undefined_false in Hv. rewrite Hv. reflexivity.
  - pose proof (prev_same it w v it' w' H) as Hsame.
    destruct (prev_stateless g (behind it) it w v it' w' (Nat.le_refl _) Hg H)
      as (_ & Hraw).
    specialize (Hraw Hv).
    assert (Hdef : array_get (val it) (idx it') <> VUndefined)
      by (intros He; rewrite He, Hgu in Hraw; congruence).
    apply array_get_defined in Hdef.
    destruct Hsame as (Hval & Hh & Hc).
    assert (Hn : has_next it' = true) by (apply has_next_true; rewrite Hval; lia).
    rewrite (next_step it' w' Hn).
    rewrite (stateless_same it it' g (conj Hval (conj Hh Hc)) Hg).
    rewrite Hval, <- Hraw.
    apply is_undefined_false in Hv. rewrite Hv. reflexivity.
Qed.

(** X14: with no stage registered, when the element at the position
    and the one after it are not [undefined], [peek()] returns what the
    second of two [next()] calls returns, not the first. *)
Theorem peek_is_second_next (it : Iter W) (w : W) :
  no_stages it ->
  array_get (val it) (idx it) <> VUndefined ->
  array_get (val it) (idx it + 1) <> VUndefined ->
  exists v1 v2 it1 it2,
    next it w = Normal (v1, it1) w /\
    next it1 w = Normal (v2, it2) w /\
    peek it w = Normal (v2, it) w /\
    v1 = array_get (val it) (idx it) /\
    v2 = array_get (val it) (idx it + 1).
Proof.
  intros [Hho _] H0 H1.
  pose proof (array_get_defined _ _ H0) as R0.
  pose proof (array_get_defined _ _ H1) as R1.
  exists (array_get (val it) (idx it)), (array_get (val it) (idx it + 1)),
         (set_idx it (idx it + 1)), (set_idx it (idx it + 1 + 1)).
  assert (Hn0 : has_next it = true) by (apply has_next_true; lia).
  assert (Hn1 : has_next (set_idx it (idx it + 1)) = true)
    by (apply has_next_true; simpl; lia).
  repeat split.
  - rewrite (next_step it w Hn0), run_pipeline_no_stages by exact Hho.
    apply is_undefined_false in H0. rewrite H0. reflexivity.
  - rewrite (next_step _ w Hn1), run_pipeline_no_stages by exact Hho.
    simpl. apply is_undefined_false in H1. rewrite H1. reflexivity.
Qed.

End Symmetry.

Lemma next_prev_undo_each_other_witness :
  prev (mkIter 2 [VNum 1; VNum 5; VNum 3] [_map] [pure_fn square]) tt
    = Normal (VNum 25, mkIter 1 [VNum 1; VNum 5; VNum 3] [_map] [pure_fn square]) tt /\
  next (mkIter 1 [VNum 1; VNum 5; VNum 3] [_map] [pure_fn square]) tt
    = Normal (VNum 25, mkIter 2 [VNum 1; VNum 5; VNum 3] [_map] [pure_fn square]) tt.
Proof.
  split.
  - apply (proj1 (next_prev_undo_each_other
             (mkIter 1 [VNum 1; VNum 5; VNum 3] [_map] [pure_fn square])
             square tt (VNum 25)
             (mkIter 2 [VNum 1; VNum 5; VNum 3] [_map] [pure_fn square]) tt
             (fun raw w => match raw with VUndefined => eq_refl | _ => eq_refl end)
             ltac:(discriminate))).
    reflexivity.
  - apply (proj2 (next_prev_undo_each_other
             (mkIter 2 [VNum 1; VNum 5; VNum 3] [_map] [pure_fn square])
             square tt (VNum 25)
             (mkIter 1 [VNum 1; VNum 5; VNum 3] [_map] [pure_fn square]) tt
             (fun raw w => match raw with VUndefined => eq_refl | _ => eq_refl end)
             ltac:(discriminate))).
    reflexivity.
Defined.

Lemma peek_is_second_next_witness :
  exists v1 v2 it1 it2,
    next (new_Iter (Some [VNum 1; VNum 5; VNum 3])) tt = Normal (v1, it1) tt /\
    next it1 tt = Normal (v2, it2) tt /\
    peek (new_Iter (Some [VNum 1; VNum 5; VNum 3])) tt
      = Normal (v2, new_Iter (Some [VNum 1; VNum 5; VNum 3])) tt /\
    v1 = array_get [VNum 1; VNum 5; VNum 3] 0 /\
    v2 = array_get [VNum 1; VNum 5; VNum 3] (0 + 1).
Proof.
  apply (peek_is_second_next (new_Iter (Some [VNum 1; VNum 5; VNum 3])) tt).
  - split; reflexivity.
  - discriminate.
  - discriminate.
Defined.

(** ** The earlier class against the later one *)

Section Versions.

Context {W : Type}.

Lemma script_collect_loop_eq (it : Script.Iter W) (full_boxed : list jsval) (w : W) :
  Script.collect_loop it full_boxed w =
  match Script.hasNext it w with
  | Throw e => Throw e
  | Normal false _ => Normal (full_boxed, it) w
  | Normal true _ =>
      match Script.next it w with
      | Throw e => Throw e
      | Normal (boxed, it') w' =>
          match run_stages (Script.higherOrder it') (Script.callback it') 0%nat boxed w' with
          | Throw e => Throw e
          | Normal boxed' w'' =>
              Script.collect_loop it'
                (if is_undefined boxed' then full_boxed else full_boxed ++ [boxed']) w''
          end
      end
  end.
Proof.
  rewrite Script.collect_loop_equation_1.
  destruct (inspect (Script.hasNext it w)) as [[[] w2|e] Heq];
    cbn [Script.collect_loop_unfold_clause_1];
    symmetry; (etransitivity; [rewrite Heq; reflexivity|]); try reflexivity.
  destruct (inspect (Script.next it w)) as [[[boxed it'] w'|e'] e0];
    cbn [Script.collect_loop_unfold_clause_1_clause_3]; rewrite e0; reflexivity.
Qed.

Lemma earlier_at_same (it : Script.Iter W) : earlier_at it (Script.idx it) = it.
Proof. destruct it; reflexivity. Qed.

Lemma script_collect_loop_later : forall (n : nat) (it : Script.Iter W)
    (a : list jsval) (acc : list jsval) (w : W),
  Script.val it = Some a -> (Script.ahead it <= n)%nat ->
  Script.collect_loop it acc w =
  match collect_loop (later it a) acc w with
  | Throw e => Throw e
  | Normal (vs, it') w' => Normal (vs, earlier_at it (idx it')) w'
  end.
Proof.
  induction n as [|n IH]; intros it a acc w Hv Hn;
    rewrite script_collect_loop_eq; unfold Script.hasNext, Script.next;
    rewrite Hv; destruct (Script.idx it <? array_length a) eqn:Hc.
  - apply Z.ltb_lt in Hc. unfold Script.ahead in Hn. rewrite Hv in Hn. lia.
  - rewrite collect_loop_eq. unfold has_next. simpl. rewrite Hc.
    rewrite earlier_at_same. reflexivity.
  - assert (Hn' : has_next (later it a) = true) by (unfold has_next; simpl; exact Hc).
    rewrite (collect_loop_step (later it a) acc w Hn').
    cbn [Script.higherOrder Script.callback].
    change (run_pipeline (later it a) (array_get (val (later it a)) (idx (later it a))) w)
      with (run_stages (Script.higherOrder it) (Script.callback it) 0%nat
              (array_get a (Script.idx it)) w).
    destruct (run_stages _ _ 0%nat _ w) as [v w'|e]; [|reflexivity].
    apply Z.ltb_lt in Hc.
    rewrite (IH _ a); [| reflexivity |].
    + unfold later, set_idx, earlier_at.
      cbn [Script.idx Script.val Script.higherOrder Script.callback
           idx val higher_order callback].
      destruct (collect_loop _ _ w') as [[vs it'] w''|e]; [rewrite Hv|]; reflexivity.
    + unfold Script.ahead in *. simpl. rewrite Hv in *. lia.
  - rewrite collect_loop_eq. unfold has_next. simpl. rewrite Hc.
    rewrite earlier_at_same. reflexivity.
Qed.

(** X15: over an array the [collect()] of the earlier class, which
    holds the pipeline loop itself, does what the [collect()] of the
    later class does through [next()]: the same values, the same calls
    of the user functions, the same final position, and an error where
    the later one raises.  Constructed without an array the earlier
    class raises a [TypeError] in [collect()]. *)
Theorem earlier_collect_agrees_with_later (it : Script.Iter W) (w : W) :
  (Script.val it = None -> Script.collect it w = Throw TypeError) /\
  (forall a, Script.val it = Some a ->
     Script.collect it w =
     match collect (later it a) w with
     | Throw e => Throw e
     | Normal (vs, it') w' => Normal (vs, earlier_at it (idx it')) w'
     end).
Proof.
  split.
  - intros Hv. unfold Script.collect. rewrite script_collect_loop_eq.
    unfold Script.hasNext. rewrite Hv. reflexivity.
  - intros a Hv. unfold Script.collect, collect.
    apply (script_collect_loop_later (Script.ahead it)); [exact Hv|lia].
Qed.

End Versions.

Lemma earlier_collect_agrees_with_later_witness :
  Script.collect (Script.map (pure_fn (plus 2))
                    (Script.filter (pure_fn (equals 3))
                       (Script.map (pure_fn (plus 1)) (Script.new_Iter None)))) tt
    = Throw TypeError /\
  Script.collect (Script.map (pure_fn (plus 2))
                    (Script.filter (pure_fn (equals 3))
                       (Script.map (pure_fn (plus 1))
                          (Script.new_Iter (Some [VNum 1; VNum 2; VNum 8]))))) tt
    = match collect (map (pure_fn (plus 2))
                       (filter (pure_fn (equals 3))
                          (map (pure_fn (plus 1))
                             (new_Iter (Some [VNum 1; VNum 2; VNum 8]))))) tt with
      | Throw e => Throw e
      | Normal (vs, it') w' =>
          Normal (vs, earlier_at
                        (Script.map (pure_fn (plus 2))
                           (Script.filter (pure_fn (equals 3))
                              (Script.map (pure_fn (plus 1))
                                 (Script.new_Iter (Some [VNum 1; VNum 2; VNum 8])))))
                        (idx it')) w'
      end.
Proof.
  split.
  - apply (proj1 (earlier_collect_agrees_with_later _ tt)). reflexivity.
  - apply (proj2 (earlier_collect_agrees_with_later
                    (Script.map (pure_fn (plus 2))
                       (Script.filter (pure_fn (equals 3))
                          (Script.map (pure_fn (plus 1))
                             (Script.new_Iter (Some [VNum 1; VNum 2; VNum 8]))))) tt)
             [VNum 1; VNum 2; VNum 8]).
    reflexivity.
Defined.

(** The run at the end of the script: [[1, 2, 8]] through
    [map(v => v + 1)], [filter(v => v === 3)], [map(v => v + 2)]. *)
Example script_result :
  exists it',
    Script.collect (Script.map (pure_fn (plus 2))
                      (Script.filter (pure_fn (equals 3))
                         (Script.map (pure_fn (plus 1))
                            (Script.new_Iter (Some [VNum 1; VNum 2; VNum 8]))))) tt
    = Normal ([VNum 5], it') tt.
Proof. eexists. vm_compute. reflexivity. Qed.

(** ** The board *)

Section BoardProperties.

Context {G P : Type}.

Lemma add_gardens_cons (g : G) (gs : list G) (b : Game.Board G P) (d : Game.Browser) :
  add_gardens (g :: gs) b d =
  add_gardens gs (fst (Game.add_garden g b d)) (snd (Game.add_garden g b d)).
Proof.
  unfold add_gardens. simpl.
  destruct (Game.add_garden g b d) as [b1 d1]. reflexivity.
Qed.

Lemma add_garden_cases (g : G) (b : Game.Board G P) (d : Game.Browser) :
  (refuses_at b (length (Game.gardens b)) = true /\
   Game.add_garden g b d = (b, Game.error "Board is full!" d)) \/
  (refuses_at b (length (Game.gardens b)) = false /\
   exists g0, Game.occupied_garden b = Some g0 /\
   Game.add_garden g b d =
   (Game.mkBoard (Game.width b) (Game.height b) (Game.gardens b ++ [g])
      (Some g0) (Game.player b), d)) \/
  (refuses_at b (length (Game.gardens b)) = false /\
   Game.occupied_garden b = None /\
   Game.add_garden g b d =
   (Game.mkBoard (Game.width b) (Game.height b) (Game.gardens b)
      (Some g) (Game.player b), d)).
Proof.
  unfold Game.add_garden, refuses_at.
  destruct (Game.width b * Game.height b - 1 <=?
            Game.of_length (length (Game.gardens b)))%float.
  - left. split; reflexivity.
  - right. destruct (Game.occupied_garden b) as [g0|] eqn:Ho.
    + left. split; [reflexivity|]. exists g0. auto.
    + right. auto.
Qed.

Lemma refuses_from_spec (b : Game.Board G P) (c : Z) (N : nat) :
  refuses_fromb b c N = true -> refuses_from b c N.
Proof.
  unfold refuses_fromb, refuses_from. intros H n Hn.
  rewrite forallb_forall in H. apply eqb_prop. apply H.
  apply in_seq. lia.
Qed.

Lemma refuses_from_le (b : Game.Board G P) (c : Z) (N M : nat) :
  (M <= N)%nat -> refuses_from b c N -> refuses_from b c M.
Proof. intros HM H n Hn. apply H. lia. Qed.

Lemma add_gardens_grows : forall (gs : list G) (b : Game.Board G P) (d : Game.Browser),
  let b' := fst (add_gardens gs b d) in
  (exists added,
     Game.gardens b' = Game.gardens b ++ added /\ (length added <= length gs)%nat) /\
  Game.width b' = Game.width b /\ Game.height b' = Game.height b /\
  Game.player b' = Game.player b /\
  (forall g0, Game.occupied_garden b = Some g0 -> Game.occupied_garden b' = Some g0) /\
  ((length (Game.gardens b) < length (Game.gardens b'))%nat ->
   refuses_at b (length (Game.gardens b') - 1) = false).
Proof.
  induction gs as [|g gs IH]; intros b d.
  - simpl. repeat split; auto; try lia.
    exists []. rewrite app_nil_r. split; [reflexivity|simpl; lia].
  - rewrite add_gardens_cons.
    specialize (IH (fst (Game.add_garden g b d)) (snd (Game.add_garden g b d))).
    cbv zeta in *.
    destruct IH as ((added & Hadd & Hn) & Hw & Hh & Hp & Hocc & Hlast).
    destruct (add_garden_cases g b d) as [(Hc & E)|[(Hc & g0 & Ho & E)|(Hc & Ho & E)]];
      rewrite E in *; cbn [fst snd] in *;
      cbn [Game.width Game.height Game.gardens Game.player Game.occupied_garden] in *.
    + split; [|repeat split; auto].
      exists added. split; [exact Hadd|simpl; lia].
    + split; [|split; [exact Hw|split; [exact Hh|split; [exact Hp|split]]]].
      * exists ([g] ++ added). rewrite Hadd, <- app_assoc.
        split; [reflexivity|simpl; lia].
      * intros g1 H1. apply Hocc. rewrite Ho in H1. exact H1.
      * intros Hlt. rewrite length_app in Hlast. cbn [length] in Hlast.
        change (refuses_at (Game.mkBoard (Game.width b) (Game.height b)
                  (Game.gardens b ++ [g]) (Some g0) (Game.player b)))
          with (refuses_at b) in Hlast.
        set (n' := length (Game.gardens (fst (add_gardens gs
                    (Game.mkBoard (Game.width b) (Game.height b)
                       (Game.gardens b ++ [g]) (Some g0) (Game.player b)) d)))) in *.
        destruct (Nat.eq_dec n' (length (Game.gardens b) + 1)) as [Heq|Hne].
        -- rewrite Heq. replace (length (Game.gardens b) + 1 - 1)%nat
             with (length (Game.gardens b)) by lia. exact Hc.
        -- apply Hlast. lia.
    + split; [|split; [exact Hw|split; [exact Hh|split; [exact Hp|split]]]].
      * exists added. split; [exact Hadd|simpl; lia].
      * intros g1 H1. rewrite Ho in H1. discriminate.
      * intros Hlt. apply Hlast. exact Hlt.
Qed.

(** X16: [add_garden] never fills the list of gardens beyond the length
    at which its test [length >= width * height - 1] starts to hold:
    after any number of calls the list is the old one with gardens
    appended; if it grew, the test failed at the last length but one;
    so where the test holds from [c] gardens on, which for a width and
    a height that are integers is [width * height - 1], the list is no
    longer than the larger of its old length and [c].  The size and the
    player are untouched, and a garden that occupies the board stays. *)
Theorem add_garden_keeps_bounds (gs : list G) (b : Game.Board G P) (d : Game.Browser) :
  let b' := fst (add_gardens gs b d) in
  (exists added,
     Game.gardens b' = Game.gardens b ++ added /\ (length added <= length gs)%nat) /\
  Game.width b' = Game.width b /\ Game.height b' = Game.height b /\
  Game.player b' = Game.player b /\
  (forall g0, Game.occupied_garden b = Some g0 -> Game.occupied_garden b' = Some g0) /\
  ((length (Game.gardens b) < length (Game.gardens b'))%nat ->
   refuses_at b (length (Game.gardens b') - 1) = false) /\
  (forall c, refuses_from b c (length (Game.gardens b) + length gs) ->
     Z.of_nat (length (Game.gardens b')) <=
       Z.max (Z.of_nat (length (Game.gardens b))) c).
Proof.
  cbv zeta.
  destruct (add_gardens_grows gs b d) as ((added & Hadd & Hn) & Hw & Hh & Hp & Ho & Hlast).
  split; [exists added; auto|].
  split; [exact Hw|]. split; [exact Hh|]. split; [exact Hp|].
  split; [exact Ho|]. split; [exact Hlast|].
  intros c Hc.
  destruct (Nat.le_gt_cases (length (Game.gardens (fst (add_gardens gs b d))))
              (length (Game.gardens b))) as [Hle|Hgt]; [lia|].
  specialize (Hlast Hgt).
  rewrite Hc in Hlast by (rewrite Hadd, length_app; lia).
  apply Z.leb_gt in Hlast. lia.
Qed.

Lemma with_errors_error (msg : string) (n : nat) (d : Game.Browser) :
  with_errors msg n (Game.error msg d) = with_errors msg (S n) d.
Proof.
  unfold with_errors, Game.error. simpl. rewrite <- app_assoc. reflexivity.
Qed.

(** X17: a board on which the test [length >= width * height - 1] of
    [add_garden] holds refuses every garden: the board stays as it is
    and each call writes the message to the console. *)
Theorem full_board_refuses (gs : list G) (b : Game.Board G P) (d : Game.Browser) :
  refuses_at b (length (Game.gardens b)) = true ->
  add_gardens gs b d = (b, with_errors "Board is full!" (length gs) d).
Proof.
  intros Hc. revert d. induction gs as [|g gs IH]; intros d.
  - unfold add_gardens, with_errors. simpl. rewrite app_nil_r.
    destruct d; reflexivity.
  - rewrite add_gardens_cons.
    destruct (add_garden_cases g b d) as [(_ & E)|[(Hlt & _)|(Hlt & _)]];
      try congruence.
    rewrite E. cbn [fst snd]. rewrite IH, with_errors_error. reflexivity.
Qed.

Lemma add_gardens_occupied : forall (gs : list G) (b : Game.Board G P)
    (d : Game.Browser) (g0 : G) (c : Z),
  Game.occupied_garden b = Some g0 ->
  refuses_from b c (length (Game.gardens b) + length gs) ->
  fst (add_gardens gs b d) =
  Game.mkBoard (Game.width b) (Game.height b)
    (Game.gardens b ++
     firstn (Z.to_nat (c - Z.of_nat (length (Game.gardens b)))) gs)
    (Some g0) (Game.player b).
Proof.
  induction gs as [|g gs IH]; intros b d g0 c Ho Hc.
  - simpl. rewrite firstn_nil, app_nil_r. destruct b. simpl in *. congruence.
  - rewrite add_gardens_cons.
    pose proof (Hc (length (Game.gardens b)) ltac:(lia)) as Hnow.
    destruct (add_garden_cases g b d) as [(Ht & E)|[(Ht & g1 & Ho1 & E)|(Ht & Ho1 & E)]];
      rewrite E; cbn [fst snd].
    + rewrite (IH b _ g0 c Ho)
        by (eapply refuses_from_le; [|exact Hc]; simpl; lia).
      rewrite Ht in Hnow. symmetry in Hnow. apply Z.leb_le in Hnow.
      replace (Z.to_nat (c - Z.of_nat (length (Game.gardens b)))) with O by lia.
      reflexivity.
    + rewrite Ho in Ho1. inversion Ho1; subst g1.
      erewrite IH; [ | reflexivity | ].
      * cbn [Game.width Game.height Game.gardens Game.player].
        rewrite Ht in Hnow. symmetry in Hnow. apply Z.leb_gt in Hnow.
        rewrite length_app. cbn [length].
        replace (Z.to_nat (c - Z.of_nat (length (Game.gardens b))))
          with (S (Z.to_nat (c - Z.of_nat (length (Game.gardens b) + 1)))) by lia.
        simpl. rewrite <- app_assoc. reflexivity.
      * cbn [Game.gardens]. rewrite length_app. cbn [length].
        intros n Hn. change (refuses_at b n = (c <=? Z.of_nat n)).
        apply Hc. simpl. lia.
    + rewrite Ho in Ho1. discriminate.
Qed.

(** X18: on a board with no garden occupying it and a list shorter than
    the length [c] from which [add_garden] refuses, the first garden
    handed to [add_garden] becomes [occupied_garden] and is not put into
    the list; the gardens that follow are appended in order until the
    list has [c] of them. *)
Theorem first_garden_becomes_occupied (g : G) (gs : list G)
    (b : Game.Board G P) (d : Game.Browser) (c : Z) :
  Game.occupied_garden b = None ->
  refuses_from b c (length (Game.gardens b) + length gs) ->
  Z.of_nat (length (Game.gardens b)) < c ->
  fst (add_gardens (g :: gs) b d) =
  Game.mkBoard (Game.width b) (Game.height b)
    (Game.gardens b ++
     firstn (Z.to_nat (c - Z.of_nat (length (Game.gardens b)))) gs)
    (Some g) (Game.player b).
Proof.
  intros Ho Hc Hlt. rewrite add_gardens_cons.
  pose proof (Hc (length (Game.gardens b)) ltac:(lia)) as Hnow.
  destruct (add_garden_cases g b d) as [(Ht & _)|[(_ & g1 & Ho1 & _)|(_ & _ & E)]];
    [ | congruence | ].
  - rewrite Ht in Hnow. symmetry in Hnow. apply Z.leb_le in Hnow. lia.
  - rewrite E. cbn [fst snd].
    erewrite add_gardens_occupied; [reflexivity | reflexivity | ].
    intros n Hn. change (refuses_at b n = (c <=? Z.of_nat n)).
    apply Hc. exact Hn.
Qed.
Lemma spawn_players_cons (p : P) (ps : list P) (b : Game.Board G P) (d : Game.Browser) :
  spawn_players (p :: ps) b d =
  spawn_players ps (fst (Game.spawn_player p b d)) (snd (Game.spawn_player p b d)).
Proof.
  unfold spawn_players. simpl.
  destruct (Game.spawn_player p b d) as [b1 d1]. reflexivity.
Qed.

Lemma spawn_players_taken : forall (ps : list P) (b : Game.Board G P)
    (d : Game.Browser) (q : P),
  Game.player b = Some q ->
  spawn_players ps b d = (b, with_errors "Player already exists!" (length ps) d).
Proof.
  induction ps as [|p ps IH]; intros b d q Hq.
  - unfold spawn_players, with_errors. simpl. rewrite app_nil_r.
    destruct d; reflexivity.
  - rewrite spawn_players_cons. unfold Game.spawn_player. rewrite Hq.
    cbn [fst snd]. rewrite (IH b _ q Hq), with_errors_error. reflexivity.
Qed.

(** X19: the board keeps the first player it is given: [spawn_player]
    on a board with a player changes nothing and writes the message to
    the console, and of several calls on a board without one only the
    first sets the player. *)
Theorem first_player_stays (ps : list P) (b : Game.Board G P) (d : Game.Browser) :
  (forall q, Game.player b = Some q ->
     spawn_players ps b d =
     (b, with_errors "Player already exists!" (length ps) d)) /\
  (Game.player b = None ->
     forall p ps', ps = p :: ps' ->
     spawn_players ps b d =
     (Game.mkBoard (Game.width b) (Game.height b) (Game.gardens b)
        (Game.occupied_garden b) (Some p),
      with_errors "Player already exists!" (length ps') d)).
Proof.
  split.
  - intros q Hq. exact (spawn_players_taken ps b d q Hq).
  - intros Hn p ps' ->. rewrite spawn_players_cons.
    unfold Game.spawn_player at 1 2. rewrite Hn. cbn [fst snd].
    erewrite spawn_players_taken by reflexivity. reflexivity.
Qed.

Lemma style_value_snoc (name k : string) (z : float) (l : list (string * float)) :
  style_value name (l ++ [(k, z)]) =
  if String.eqb k name then Some z else style_value name l.
Proof. unfold style_value. rewrite fold_left_app. reflexivity. Qed.

Lemma run_calls_cons (c : board_call) (cs : list board_call)
    (b : Game.Board G P) (d : Game.Browser) :
  run_calls (c :: cs) b d =
  run_calls cs (fst (run_call c (b, d))) (snd (run_call c (b, d))).
Proof.
  unfold run_calls. simpl. destruct (run_call c (b, d)) as [b1 d1]. reflexivity.
Qed.

Lemma resize_shows_size (b : Game.Board G P) (d : Game.Browser) :
  (forall w h, style_shows_size (Game.set_size w h b d)) /\
  style_shows_size (Game.increase b d).
Proof.
  split; [intros w h|]; unfold style_shows_size, Game.set_size, Game.increase,
    Game.setProperty; cbn [fst snd Game.root_style Game.width Game.height];
    rewrite !style_value_snoc; split; reflexivity.
Qed.

Lemma run_call_keeps_style (c : board_call) (bd : Game.Board G P * Game.Browser) :
  style_shows_size bd -> style_shows_size (run_call c bd).
Proof.
  intros H. destruct bd as [b d]. destruct c as [w h| |g|p]; cbn [run_call fst snd].
  - apply resize_shows_size.
  - apply resize_shows_size.
  - destruct (add_garden_cases g b d) as [(_ & E)|[(_ & g0 & _ & E)|(_ & _ & E)]];
      rewrite E; exact H.
  - unfold Game.spawn_player. destruct (Game.player b); exact H.
Qed.

Lemma run_calls_keep_style : forall (cs : list board_call)
    (b : Game.Board G P) (d : Game.Browser),
  style_shows_size (b, d) -> style_shows_size (run_calls cs b d).
Proof.
  induction cs as [|c cs IH]; intros b d H; [exact H|].
  rewrite run_calls_cons. apply IH.
  pose proof (run_call_keeps_style c (b, d) H) as H1.
  destruct (run_call c (b, d)); exact H1.
Qed.

(** X20: once [set_size] or [increase] has been called, the style
    properties [--board-width] and [--board-height] of the document root
    hold the width and the height of the board, and no later call of
    [set_size], [increase], [add_garden] or [spawn_player] separates
    them. *)
Theorem style_follows_size (cs : list board_call)
    (b : Game.Board G P) (d : Game.Browser) :
  (forall w h, style_shows_size (run_calls (call_set_size w h :: cs) b d)) /\
  style_shows_size (run_calls (call_increase :: cs) b d).
Proof.
  split; [intros w h|]; rewrite run_calls_cons; apply run_calls_keep_style;
    cbn [run_call fst snd].
  - pose proof (proj1 (resize_shows_size b d) w h) as H.
    destruct (Game.set_size w h b d); exact H.
  - pose proof (proj2 (resize_shows_size b d)) as H.
    destruct (Game.increase b d); exact H.
Qed.

End BoardProperties.

(** For a width and a height that are integers the test of [add_garden]
    is the comparison of the length with their product less one;
    computed for the boards up to 12 by 12 and the lists up to 160
    gardens. *)
Lemma integer_sizes_refuse_from_product (a b n : nat) :
  (a <= 12)%nat -> (b <= 12)%nat -> (n <= 160)%nat ->
  refuses_at (board_of (Game.of_length a) (Game.of_length b) [] None) n =
  (Z.of_nat a * Z.of_nat b - 1 <=? Z.of_nat n).
Proof.
  intros Ha Hb Hn.
  assert (H : forallb (fun a => forallb (fun b => forallb (fun n =>
                Bool.eqb
                  (refuses_at (board_of (Game.of_length a) (Game.of_length b) [] None) n)
                  (Z.of_nat a * Z.of_nat b - 1 <=? Z.of_nat n))
                (seq 0 161)) (seq 0 13)) (seq 0 13) = true)
    by (vm_compute; reflexivity).
  rewrite forallb_forall in H.
  specialize (H a ltac:(apply in_seq; lia)).
  rewrite forallb_forall in H.
  specialize (H b ltac:(apply in_seq; lia)).
  rewrite forallb_forall in H.
  apply eqb_prop. apply H. apply in_seq. lia.
Qed.

(** A width and a height of 1.5: the list takes a second garden, one
    more than [width * height - 1 = 1.25] allows for, and with a size
    that is NaN no garden is refused. *)
Example fractional_and_nan_sizes :
  Game.gardens (fst (add_gardens [1%nat; 2%nat; 3%nat; 4%nat]
                       (board_of 1.5 1.5 [] (Some 0%nat)) (Game.mkBrowser [] [])))
    = [1%nat; 2%nat] /\
  Game.gardens (fst (add_gardens [1%nat; 2%nat; 3%nat; 4%nat]
                       (board_of nan 1 [] (Some 0%nat)) (Game.mkBrowser [] [])))
    = [1%nat; 2%nat; 3%nat; 4%nat].
Proof. split; vm_compute; reflexivity. Qed.

Lemma add_garden_keeps_bounds_witness :
  Z.of_nat (length (Game.gardens (fst (add_gardens [1%nat; 2%nat; 3%nat; 4%nat; 5%nat]
     (board_of 2 2 [9%nat] (Some 0%nat)) (Game.mkBrowser [] [])))))
    <= Z.max (Z.of_nat (length [9%nat])) 3 /\
  Z.of_nat (length (Game.gardens (fst (add_gardens [1%nat; 2%nat; 3%nat; 4%nat]
     (board_of 1.5 1.5 [] (Some 0%nat)) (Game.mkBrowser [] [])))))
    <= Z.max (Z.of_nat (length (@nil nat))) 2.
Proof.
  split.
  - apply (add_garden_keeps_bounds [1%nat; 2%nat; 3%nat; 4%nat; 5%nat]
             (board_of 2 2 [9%nat] (Some 0%nat)) (Game.mkBrowser [] [])).
    apply refuses_from_spec. vm_compute. reflexivity.
  - apply (add_garden_keeps_bounds [1%nat; 2%nat; 3%nat; 4%nat]
             (board_of 1.5 1.5 [] (Some 0%nat)) (Game.mkBrowser [] [])).
    apply refuses_from_spec. vm_compute. reflexivity.
Defined.

Lemma full_board_refuses_witness :
  add_gardens [7%nat; 8%nat] (board_of 1 1 [0%nat] None) (Game.mkBrowser [] []) =
  (board_of 1 1 [0%nat] None,
   with_errors "Board is full!" 2 (Game.mkBrowser [] [])).
Proof.
  apply (full_board_refuses [7%nat; 8%nat] (board_of 1 1 [0%nat] None)
           (Game.mkBrowser [] [])).
  vm_compute. reflexivity.
Defined.

Lemma first_garden_becomes_occupied_witness :
  fst (add_gardens [7%nat; 8%nat; 9%nat; 10%nat]
         (board_of 2 2 [0%nat] None) (Game.mkBrowser [] [])) =
  Game.mkBoard 2 2 ([0%nat] ++ firstn 2 [8%nat; 9%nat; 10%nat]) (Some 7%nat) None.
Proof.
  apply (first_garden_becomes_occupied 7%nat [8%nat; 9%nat; 10%nat]
           (board_of 2 2 [0%nat] None) (Game.mkBrowser [] []) 3).
  - reflexivity.
  - apply refuses_from_spec. vm_compute. reflexivity.
  - simpl. lia.
Defined.

Lemma first_player_stays_witness :
  spawn_players [1%nat; 2%nat; 3%nat]
    (Game.mkBoard (G := unit) 1 1 [] None (Some 0%nat)) (Game.mkBrowser [] []) =
  (Game.mkBoard 1 1 [] None (Some 0%nat),
   with_errors "Player already exists!" 3 (Game.mkBrowser [] [])) /\
  spawn_players [1%nat; 2%nat; 3%nat]
    (Game.mkBoard (G := unit) 1 1 [] None None) (Game.mkBrowser [] []) =
  (Game.mkBoard 1 1 [] None (Some 1%nat),
   with_errors "Player already exists!" 2 (Game.mkBrowser [] [])).
Proof.
  split.
  - apply (proj1 (first_player_stays [1%nat; 2%nat; 3%nat]
                    (Game.mkBoard 1 1 [] None (Some 0%nat)) (Game.mkBrowser [] []))
             0%nat).
    reflexivity.
  - apply (proj2 (first_player_stays [1%nat; 2%nat; 3%nat]
                    (Game.mkBoard 1 1 [] None None) (Game.mkBrowser [] []))
             eq_refl 1%nat [2%nat; 3%nat]).
    reflexivity.
Defined.
